(** * convert_ios.py: the localization store and its merge engine

    A shallow embedding of [src/convert_ios.py].  The script drives an SQLite
    connection; the embedding has three layers:

    - the store: the two tables [Files] and [Localizations] of [create_table],
      with the constraints declared there (NOT NULL, UNIQUE, the unique index
      on (file_id, position), the foreign key, AUTOINCREMENT);
    - the connection: [db.execute], [with db:] and the implicit transactions
      of Python's [sqlite3] module, as a state-and-exception monad that also
      records the statements it runs;
    - the script's functions, written in that monad line by line.

    Scope of the store model.  A locale code is pasted into the SQL text as a
    column name.  The model covers codes that are one bare SQL name, are not a
    reserved word and do not collide with a structural column ([file_id],
    [position], [description]) or a rowid alias; every other code makes the
    statement fail with [OperationalError] in the model.  For most of them
    SQLite reports a syntax error as well; a few are accepted by SQLite with
    another meaning (an update of [position] moves the record, an update of
    [description] overwrites it, an empty code adds a column named TEXT), and
    are not covered: a property whose content depends on what a statement
    does with a code states [language_name] of that code as a hypothesis.
    Column names compare up to ASCII case, as in SQLite.  The foreign key of
    [Localizations] is enforced, as on a connection on which [create_table]
    has run ([PRAGMA foreign_keys = ON]). *)

From Stdlib Require Import ZArith Ascii.
From stdpp Require Import base option list gmap strings.

(** ** Locale codes and column names *)

Fixpoint string_map (f : ascii → ascii) (s : string) : string :=
  match s with
  | EmptyString => EmptyString
  | String c r => String (f c) (string_map f r)
  end.

Fixpoint string_forallb (f : ascii → bool) (s : string) : bool :=
  match s with
  | EmptyString => true
  | String c r => f c && string_forallb f r
  end.

(** [lang.replace('-', '_')] *)
Definition format_language (lang : string) : string :=
  string_map (λ c, if Ascii.eqb c "-" then "_"%char else c) lang.

Definition between (lo hi n : nat) : bool := (lo <=? n)%nat && (n <=? hi)%nat.

Definition lower_ascii (c : ascii) : ascii :=
  let n := nat_of_ascii c in
  if between 65 90 n then ascii_of_nat (n + 32) else c.

(** The name under which SQLite looks a column up: names differing only in
    ASCII case denote the same column. *)
Definition column_key (name : string) : string := string_map lower_ascii name.

Definition name_start (c : ascii) : bool :=
  let n := nat_of_ascii c in
  between 65 90 n || between 97 122 n || (n =? 95)%nat || (128 <=? n)%nat.

Definition name_char (c : ascii) : bool :=
  let n := nat_of_ascii c in
  name_start c || between 48 57 n || (n =? 36)%nat.

Definition bare_name (s : string) : bool :=
  match s with
  | EmptyString => false
  | String c r => name_start c && string_forallb name_char r
  end.

(** Keywords that SQLite (3.40) refuses as an unquoted column name. *)
Definition reserved_words : list string :=
  [ "add"; "all"; "alter"; "and"; "as"; "autoincrement"; "between"; "case";
    "check"; "collate"; "commit"; "constraint"; "create"; "default";
    "deferrable"; "delete"; "distinct"; "drop"; "else"; "escape"; "except";
    "exists"; "foreign"; "from"; "group"; "having"; "in"; "index"; "insert";
    "intersect"; "into"; "is"; "isnull"; "join"; "limit"; "not"; "nothing";
    "notnull"; "null"; "on"; "or"; "order"; "primary"; "references";
    "returning"; "select"; "set"; "table"; "then"; "to"; "transaction";
    "union"; "unique"; "update"; "using"; "values"; "when"; "where" ].

(** Columns of [Localizations] that are not language columns, and the names
    SQLite gives to the implicit row identifier. *)
Definition structural_names : list string :=
  [ "file_id"; "position"; "description"; "rowid"; "oid"; "_rowid_" ].

(** A locale code that the statements of the script can use as the name of a
    language column. *)
Definition language_name (s : string) : bool :=
  bare_name s
  && bool_decide (column_key s ∉ reserved_words)
  && bool_decide (column_key s ∉ structural_names).

(** The default language: the only language column of [create_table]. *)
Definition default_language : string := "en".

(** ** The store *)

(** A row of [Files (id, project NOT NULL, path NOT NULL UNIQUE)]. *)
Record FileRow := {
  id : Z;
  project : string;
  path : string
}.

(** A row of [Localizations].  [file_id] and [position] are NOT NULL;
    [description] is nullable; [texts] maps the key of a language column to
    its text, an absent key being NULL. *)
Record LocalizationRow := {
  file_id : Z;
  position : string;
  description : option string;
  texts : gmap string string
}.

(** The database file.  [created] tells whether the script of [create_table]
    has run on it; [Files_seq] is the AUTOINCREMENT counter of [Files];
    [columns] lists the keys of the language columns of [Localizations]. *)
Record database := {
  created : bool;
  Files : list FileRow;
  Files_seq : Z;
  columns : list string;
  Localizations : list LocalizationRow
}.

(** A file on which nothing was created yet. *)
Definition blank : database :=
  {| created := false; Files := []; Files_seq := 0;
     columns := []; Localizations := [] |}.

Definition has_column (d : database) (name : string) : bool :=
  bool_decide (column_key name ∈ columns d).

Definition slot (r : LocalizationRow) : Z * string := (file_id r, position r).

(** [WHERE file_id = ? AND position = ?]; a NULL parameter matches no row. *)
Definition at_slot (f : Z) (p : option string) (r : LocalizationRow) : Prop :=
  file_id r = f ∧ Some (position r) = p.

Global Instance at_slot_dec f p r : Decision (at_slot f p r).
Proof. unfold at_slot. apply _. Defined.

(** Writing a value (NULL is [None]) into a language column of a row. *)
Definition set_text (name : string) (v : option string)
    (r : LocalizationRow) : LocalizationRow :=
  {| file_id := file_id r; position := position r;
     description := description r;
     texts := match v with
              | Some t => <[column_key name := t]> (texts r)
              | None => delete (column_key name) (texts r)
              end |}.

Definition get_text (name : string) (r : LocalizationRow) : option string :=
  texts r !! column_key name.

(** ** Exceptions *)

Inductive operational_reason :=
  | syntax_error
  | no_such_table
  | no_such_column
  | duplicate_column_name
  | disk_io_error.

Inductive exn :=
  | OperationalError (why : operational_reason)
  | IntegrityError
  | DatabaseError
  | AttributeError
  | StopIteration
  | IndexError.

Global Instance operational_reason_eq_dec : EqDecision operational_reason.
Proof. solve_decision. Defined.

Global Instance exn_eq_dec : EqDecision exn.
Proof. solve_decision. Defined.

(** ** Statements *)

(** The five statement texts of the script (with their parameters) and the
    script of [create_table]. *)
Inductive statement :=
  | CreateTables
  | SelectFileId (path : option string)
  | InsertFile (project path : option string)
  | UpdateLocalization (column : string) (content : option string)
      (file_id : Z) (position : option string)
  | InsertLocalization (file_id : Z) (position description : option string)
      (base_column : string) (base_content : option string)
      (tran_column : string) (tran_content : option string)
  | AddColumn (column : string).

(** What the script reads from a cursor. *)
Record cursor := {
  rows : list Z;
  rowcount : Z;
  lastrowid : Z
}.

Definition no_cursor : cursor := {| rows := []; rowcount := -1; lastrowid := 0 |}.

(** Python begins a transaction before a data-modifying statement. *)
Definition is_dml (s : statement) : bool :=
  match s with
  | InsertFile _ _ | UpdateLocalization _ _ _ _
  | InsertLocalization _ _ _ _ _ _ _ => true
  | _ => false
  end.

(** Compilation of a statement against the schema.  A code that is not a
    [language_name] is reported as a syntax error: this is the scope of the
    model, see the head of the file. *)
Definition prepare (d : database) (s : statement) : option exn :=
  match s with
  | CreateTables => None
  | SelectFileId _ | InsertFile _ _ =>
      if created d then None else Some (OperationalError no_such_table)
  | UpdateLocalization c _ _ _ =>
      if negb (language_name c) then Some (OperationalError syntax_error)
      else if negb (created d) then Some (OperationalError no_such_table)
      else if negb (has_column d c) then Some (OperationalError no_such_column)
      else None
  | InsertLocalization _ _ _ b _ t _ =>
      if negb (language_name b && language_name t)
      then Some (OperationalError syntax_error)
      else if negb (created d) then Some (OperationalError no_such_table)
      else if negb (has_column d b && has_column d t)
      then Some (OperationalError no_such_column)
      else None
  | AddColumn c =>
      if negb (language_name c) then Some (OperationalError syntax_error)
      else if negb (created d) then Some (OperationalError no_such_table)
      else if has_column d c then Some (OperationalError duplicate_column_name)
      else None
  end.

Definition max_id (l : list FileRow) : Z := foldr (λ r m, Z.max (id r) m) 0%Z l.

Definition with_Files (d : database) (l : list FileRow) (seq : Z) : database :=
  {| created := created d; Files := l; Files_seq := seq;
     columns := columns d; Localizations := Localizations d |}.

Definition with_Localizations (d : database) (l : list LocalizationRow) : database :=
  {| created := created d; Files := Files d; Files_seq := Files_seq d;
     columns := columns d; Localizations := l |}.

Definition with_columns (d : database) (l : list string) : database :=
  {| created := created d; Files := Files d; Files_seq := Files_seq d;
     columns := l; Localizations := Localizations d |}.

(** The tables of [create_table]: [en] is the one language column. *)
Definition created_tables : database :=
  {| created := true; Files := []; Files_seq := 0;
     columns := [default_language]; Localizations := [] |}.

(** The row an INSERT builds.  When both placeholders name the same column
    SQLite keeps the value of the first one, the base content. *)
Definition new_row (f : Z) (p : string) (desc : option string)
    (b : string) (bv : option string) (t : string) (tv : option string)
    : LocalizationRow :=
  set_text b bv (set_text t tv
    {| file_id := f; position := p; description := desc; texts := ∅ |}).

(** [UPDATE ... SET c = v WHERE file_id = f AND position = p] on the rows. *)
Definition update_rows (c : string) (v : option string) (f : Z) (p : option string)
    (l : list LocalizationRow) : list LocalizationRow :=
  (λ r, if decide (at_slot f p r) then set_text c v r else r) <$> l.

(** Execution of a compiled statement: the new database and the cursor, or
    the exception, in which case the statement changed nothing. *)
Definition step (d : database) (s : statement) : exn + database * cursor :=
  match s with
  | CreateTables =>
      inr (if created d then d else created_tables, no_cursor)
  | SelectFileId p =>
      inr (d, {| rows := match p with
                         | Some p => id <$> filter (λ r, path r = p) (Files d)
                         | None => []
                         end;
                 rowcount := -1; lastrowid := 0 |})
  | InsertFile (Some pj) (Some p) =>
      if bool_decide (p ∈ path <$> Files d) then inl IntegrityError
      else
        let i := (Z.max (Files_seq d) (max_id (Files d)) + 1)%Z in
        inr (with_Files d (Files d ++ [{| id := i; project := pj; path := p |}]) i,
             {| rows := []; rowcount := 1; lastrowid := i |})
  | InsertFile _ _ => inl IntegrityError
  | UpdateLocalization c v f p =>
      let hit := filter (at_slot f p) (Localizations d) in
      if bool_decide (hit ≠ []
                      ∧ column_key c = default_language ∧ v = None)
      then inl IntegrityError
      else
        inr (with_Localizations d (update_rows c v f p (Localizations d)),
             {| rows := []; rowcount := Z.of_nat (length hit); lastrowid := 0 |})
  | InsertLocalization f (Some p) desc b bv t tv =>
      let r := new_row f p desc b bv t tv in
      if bool_decide (get_text default_language r = None) then inl IntegrityError
      else if bool_decide ((f, p) ∈ slot <$> Localizations d) then inl IntegrityError
      else if bool_decide (f ∉ id <$> Files d) then inl IntegrityError
      else
        inr (with_Localizations d (Localizations d ++ [r]),
             {| rows := []; rowcount := 1; lastrowid := 0 |})
  | InsertLocalization _ None _ _ _ _ _ => inl IntegrityError
  | AddColumn c =>
      inr (with_columns d (columns d ++ [column_key c]), no_cursor)
  end.

(** ** The connection *)

(** A connection: the current content of the database, the content to which
    a rollback returns when a transaction is open, and the condition of the
    storage underneath: [failure = Some e] is a storage on which every
    statement raises [e] (an I/O error, a damaged file). *)
Record connection := {
  data : database;
  saved : option database;
  failure : option exn
}.

(** [sqlite3.connect] on a file with the given content. *)
Definition connect (file : database) : connection :=
  {| data := file; saved := None; failure := None |}.

Definition idle (c : connection) : Prop := saved c = None.

Definition with_data (c : connection) (d : database) : connection :=
  {| data := d; saved := saved c; failure := failure c |}.

Definition begin (c : connection) : connection :=
  {| data := data c;
     saved := match saved c with Some d => Some d | None => Some (data c) end;
     failure := failure c |}.

Definition commit (c : connection) : connection :=
  {| data := data c; saved := None; failure := failure c |}.

Definition rollback (c : connection) : connection :=
  {| data := default (data c) (saved c); saved := None; failure := failure c |}.

Inductive outcome (A : Type) :=
  | Return (a : A)
  | Raise (e : exn).
Arguments Return {A} a.
Arguments Raise {A} e.

(** What a run leaves in the log: the statements passed to the engine with
    the number of rows they affected or the exception they raised, and the
    ends of the [with db:] blocks. *)
Inductive event :=
  | Executed (s : statement) (affected : Z)
  | Failed (s : statement) (e : exn)
  | Committed
  | RolledBack.

(** Computations on a connection that return or raise. *)
Definition M (A : Type) : Type := connection → outcome A * connection * list event.

Definition ret {A} (a : A) : M A := λ c, (Return a, c, []).

Definition raise {A} (e : exn) : M A := λ c, (Raise e, c, []).

Definition bind {A B} (m : M A) (k : A → M B) : M B := λ c,
  match m c with
  | (Return a, c1, t1) =>
      match k a c1 with
      | (o, c2, t2) => (o, c2, t1 ++ t2)
      end
  | (Raise e, c1, t1) => (Raise e, c1, t1)
  end.

Global Instance M_ret : MRet M := @ret.
Global Instance M_bind : MBind M := λ A B k m, bind m k.

(** [try: m except ...: h]: [handler e] is the body of the clause that
    catches [e], if there is one. *)
Definition try_except {A} (m : M A) (handler : exn → option (M A)) : M A := λ c,
  match m c with
  | (Raise e, c1, t1) =>
      match handler e with
      | Some h =>
          match h c1 with
          | (o, c2, t2) => (o, c2, t1 ++ t2)
          end
      | None => (Raise e, c1, t1)
      end
  | r => r
  end.

(** [for x in l: body x] *)
Fixpoint for_each {A} (l : list A) (body : A → M unit) : M unit :=
  match l with
  | [] => ret tt
  | x :: l' => bind (body x) (λ _, for_each l' body)
  end.

(** [db.execute(sql, parameters)] *)
Definition execute (s : statement) : M cursor := λ c,
  match failure c with
  | Some e => (Raise e, c, [Failed s e])
  | None =>
      match prepare (data c) s with
      | Some e => (Raise e, c, [Failed s e])
      | None =>
          let c1 := if is_dml s then begin c else c in
          match step (data c1) s with
          | inl e => (Raise e, c1, [Failed s e])
          | inr (d, cur) => (Return cur, with_data c1 d, [Executed s (rowcount cur)])
          end
      end
  end.

(** [db.executescript(script)]: commits what is pending, then runs the
    script outside of any transaction. *)
Definition executescript (s : statement) : M cursor := λ c, execute s (commit c).

(** [with db: body]: commit when the body returns, roll back when it
    raises, and let the exception through. *)
Definition with_db {A} (body : M A) : M A := λ c,
  match body c with
  | (Return a, c1, t1) => (Return a, commit c1, t1 ++ [Committed])
  | (Raise e, c1, t1) => (Raise e, rollback c1, t1 ++ [RolledBack])
  end.

(** ** The documents *)

(** A [base] or [tran] element: its [loc] attribute, if present, and its
    text, [None] for an empty element. *)
Record Translation := {
  loc : option string;
  text : option string
}.

(** A [TextItem]: the texts of [Description] and [Position], and the [base]
    and the [tran] children of [TranslationSet], in document order. *)
Record TextItem := {
  Description : option string;
  Position : option string;
  base : Translation;
  trans : list Translation
}.

Record FileElement := {
  Filepath : option string;
  TextItems : list TextItem
}.

(** A parsed [*.lg] document. *)
Record Document := {
  ProjName : option string;
  FileElements : list FileElement
}.

(** ** The script *)

(** [format_language(e.get('loc'))]: [None.replace] raises. *)
Definition language_of (e : Translation) : M string :=
  match loc e with
  | Some l => ret (format_language l)
  | None => raise AttributeError
  end.

(** The [tran] elements of a document, in document order. *)
Definition document_trans (lg : Document) : list Translation :=
  concat ((λ f, concat (trans <$> TextItems f)) <$> FileElements lg).

Definition get_language (lg : Document) : M string :=
  match document_trans lg with
  | tran :: _ => language_of tran
  | [] => raise StopIteration
  end.

Definition add_file (project path : option string) : M Z :=
  cursor ← execute (SelectFileId path);
  match rows cursor with
  | i :: _ => ret i
  | [] =>
      with_db (
        cursor ← execute (InsertFile project path);
        ret (lastrowid cursor))
  end.

(** The body of the loop of [add_text_item] (lines 88 to 94): the merge of
    one translation into the record at (file_id, position). *)
Definition merge_tran (file_id : Z) (position description : option string)
    (base_language : string) (base_content : option string)
    (tran : Translation) : M unit :=
  tran_language ← language_of tran;
  let tran_content := text tran in
  cursor ← execute (UpdateLocalization tran_language tran_content file_id position);
  if decide (rowcount cursor = 0%Z) then
    _ ← execute (InsertLocalization file_id position description
                   base_language base_content tran_language tran_content);
    ret tt
  else ret tt.

Definition add_text_item (text_item : TextItem) (file_id : Z) : M unit :=
  let description := Description text_item in
  let position := Position text_item in
  base_language ← language_of (base text_item);
  let base_content := text (base text_item) in
  with_db (
    for_each (trans text_item)
      (merge_tran file_id position description base_language base_content)).

Definition add_localization_project (lg : Document) : M unit :=
  let project := ProjName lg in
  for_each (FileElements lg) (λ f,
    let path := Filepath f in
    file_id ← add_file project path;
    for_each (TextItems f) (λ text_item, add_text_item text_item file_id)).

Definition add_language (language : string) : M unit :=
  with_db (
    try_except (_ ← execute (AddColumn language); ret tt)
      (λ e, match e with
            | OperationalError _ => Some (ret tt)
            | _ => None
            end)).

(** [convert]: [files] are the documents of the mounted archive, in the
    order of the directory listing. *)
Definition convert (files : list Document) : M unit :=
  match files with
  | [] => raise IndexError
  | first :: _ =>
      language ← get_language first;
      add_language language;;
      for_each files add_localization_project
  end.

Definition create_table : M unit :=
  with_db (_ ← executescript CreateTables; ret tt).

(** [main]: one list of documents per archive named on the command line;
    the connection it runs on is [connect file], for the content [file] of
    [ios.sqlite] when the run starts. *)
Definition main (filenames : list (list Document)) : M unit :=
  create_table;;
  for_each filenames convert.

(** Reading the three components of a run. *)
Definition result {A} (m : M A) (c : connection) : outcome A := (m c).1.1.
Definition run {A} (m : M A) (c : connection) : connection := (m c).1.2.
Definition log {A} (m : M A) (c : connection) : list event := (m c).2.

(** The calls a run of the script is made of. *)
Inductive call :=
  | CreateTable
  | AddLanguage (language : string)
  | AddFile (project path : option string)
  | AddTextItem (text_item : TextItem) (file_id : Z)
  | AddLocalizationProject (lg : Document)
  | Convert (files : list Document)
  | Main (filenames : list (list Document)).

Definition perform (k : call) : M unit :=
  match k with
  | CreateTable => create_table
  | AddLanguage language => add_language language
  | AddFile project path => _ ← add_file project path; ret tt
  | AddTextItem text_item file_id => add_text_item text_item file_id
  | AddLocalizationProject lg => add_localization_project lg
  | Convert files => convert files
  | Main filenames => main filenames
  end.

(** Calls made one after the other on the same connection; a call that
    raises leaves the connection to the next one as it is then. *)
Definition perform_all (ks : list call) (c : connection) : connection :=
  foldl (λ c k, run (perform k) c) c ks.

(** The record stored at (file_id, position), if any. *)
Definition record_at (f : Z) (p : string) (d : database) : option LocalizationRow :=
  head (filter (at_slot f (Some p)) (Localizations d)).

(** The uniqueness that [LocalizationIndex] declares. *)
Definition unique_slots (d : database) : Prop := NoDup (slot <$> Localizations d).

(** The stored project of a path, if the path is registered. *)
Definition project_of (p : string) (d : database) : option string :=
  project <$> head (filter (λ r, path r = p) (Files d)).

(** The connection on which a compiled statement runs. *)
Definition started (s : statement) (c : connection) : connection :=
  if is_dml s then begin c else c.

(** A computation keeps the property [I] of the connection and logs only
    events that satisfy [E]. *)
Definition respects (I : connection → Prop) (E : event → Prop)
    {A} (m : M A) : Prop :=
  ∀ c o c' t, I c → m c = (o, c', t) → I c' ∧ Forall E t.

(** A property of the database that holds of the content and of the content
    a rollback would restore. *)
Definition lifted (P : database → Prop) (c : connection) : Prop :=
  P (data c) ∧ ∀ d, saved c = Some d → P d.

(** A property of the database that no statement breaks. *)
Definition stable (P : database → Prop) : Prop :=
  ∀ s d d' cur, P d → prepare d s = None → step d s = inr (d', cur) → P d'.

Definition statement_of (ev : event) : option statement :=
  match ev with
  | Executed s _ | Failed s _ => Some s
  | _ => None
  end.

(** Events of the statements that change the schema. *)
Definition schema_event (ev : event) : Prop :=
  statement_of ev = Some CreateTables ∨ ∃ l, statement_of ev = Some (AddColumn l).

(** A property of the connection that the engine keeps: across the start of
    a transaction, a statement that ran, a commit and a rollback. *)
Record kept (I : connection → Prop) : Prop := {
  kept_started : ∀ s c, I c → I (started s c);
  kept_step : ∀ s c d cur, I c → prepare (data c) s = None →
              step (data c) s = inr (d, cur) → I (with_data (started s c) d);
  kept_commit : ∀ c, I c → I (commit c);
  kept_rollback : ∀ c, I c → I (rollback c)
}.

Definition any_event : event → Prop := λ _, True.

(** The database has its tables and at least the language columns [S]. *)
Definition keeps_columns (S : list string) (d : database) : Prop :=
  created d = true ∧ S ⊆ columns d.

(** The connections that a block entered on [c0] can reach before it ends:
    either nothing was started, or a transaction is open whose rollback
    restores the content of [c0]. *)
Definition within (c0 c : connection) : Prop :=
  failure c = failure c0 ∧ (c = c0 ∨ saved c = Some (data c0)).

Definition statement_event (ev : event) : Prop := is_Some (statement_of ev).

(** The language columns that a statement writes. *)
Definition columns_of (s : statement) : list string :=
  match s with
  | UpdateLocalization c _ _ _ => [c]
  | InsertLocalization _ _ _ b _ t _ => [b; t]
  | _ => []
  end.

(** In a log, every statement that writes a language column comes after an
    ALTER TABLE statement for that column. *)
Definition ensured_before (t : list event) : Prop :=
  ∀ i ev s name,
    t !! i = Some ev → statement_of ev = Some s → name ∈ columns_of s →
    ∃ j ev0, (j < i)%nat ∧ t !! j = Some ev0
             ∧ statement_of ev0 = Some (AddColumn name).

(** The column that the merge of a translation writes (for a translation
    that has its [loc] attribute). *)
Definition tran_column (tran : Translation) : string :=
  format_language (default EmptyString (loc tran)).

(** The record after the updates of a list of translations, in order. *)
Definition write_trans (l : list Translation) (r : LocalizationRow) : LocalizationRow :=
  foldl (λ r tran, set_text (tran_column tran) (text tran) r) r l.

(** The rows after the updates of a list of translations at one slot. *)
Definition update_trans (f : Z) (p : option string) (l : list Translation)
    (rows : list LocalizationRow) : list LocalizationRow :=
  foldl (λ rows tran, update_rows (tran_column tran) (text tran) f p rows) rows l.

(** The value of the column of key [k] after the updates, from its value before. *)
Definition assigned (k : string) (l : list Translation) (x : option string)
    : option string :=
  foldl (λ x tran, if decide (k = column_key (tran_column tran)) then text tran else x)
    x l.

(** A translation whose update the engine accepts. *)
Definition accepted (d : database) (f : Z) (p : option string)
    (tran : Translation) : Prop :=
  is_Some (loc tran)
  ∧ prepare d (UpdateLocalization (tran_column tran) (text tran) f p) = None
  ∧ ¬ (column_key (tran_column tran) = default_language ∧ text tran = None).

(** The rows that the merges of a text item leave: one record at the slot,
    on which the updates of the same translations change nothing. *)
Definition settled (f : Z) (p : option string) (l : list Translation)
    (rows : list LocalizationRow) : Prop :=
  length (filter (at_slot f p) rows) = 1%nat ∧ update_trans f p l rows = rows.

(** ** Sample data *)

Definition tr (l : string) (t : string) : Translation :=
  {| loc := Some l; text := Some t |}.

Definition item (p d : string) (b : Translation) (ts : list Translation) : TextItem :=
  {| Description := Some d; Position := Some p; base := b; trans := ts |}.

(** The store after [create_table] on a new file. *)
Definition new_store : connection := run create_table (connect blank).

(** A store with the columns [fr] and [de] and the file of identifier 1. *)
Definition sample_store : connection :=
  perform_all [AddLanguage "fr"; AddLanguage "de";
               AddFile (Some "App") (Some "A/B.strings")] new_store.

(** A document with one text item in French and German. *)
Definition sample_document : Document :=
  {| ProjName := Some "App";
     FileElements :=
       [ {| Filepath := Some "A/B.strings";
            TextItems := [ item "0" "title" (tr "en" "Hello")
                             [tr "fr" "Bonjour"; tr "de" "Hallo"] ] |} ] |}.

(** ** Further properties of the store and of the input *)

(** A string without the hyphen that [format_language] replaces. *)
Definition hyphen_free (s : string) : bool :=
  string_forallb (λ c, negb (Ascii.eqb c "-")) s.

(** The identifiers and the paths of [Files] are pairwise distinct
    (PRIMARY KEY, UNIQUE). *)
Definition files_distinct (d : database) : Prop :=
  NoDup (id <$> Files d) ∧ NoDup (path <$> Files d).

(** Every record refers to a registered file (FOREIGN KEY). *)
Definition referential (d : database) : Prop :=
  Forall (λ r, file_id r ∈ id <$> Files d) (Localizations d).

(** Every record has a text in the default language ([en] NOT NULL). *)
Definition default_present (d : database) : Prop :=
  Forall (λ r, is_Some (get_text default_language r)) (Localizations d).

(** The tables exist and still begin with the given file rows and the given
    record slots. *)
Definition extends (F : list FileRow) (S : list (Z * string)) (d : database) : Prop :=
  created d = true ∧ F `prefix_of` Files d ∧ S `prefix_of` (slot <$> Localizations d).

(** A computation that, from the connections that satisfy [I], returns (it
    does not raise), with a value and a connection that satisfy [Q]. *)
Definition returns {A} (I : connection → Prop) (m : M A)
    (Q : A → connection → Prop) : Prop :=
  ∀ c, I c → ∃ a c' t, m c = (Return a, c', t) ∧ Q a c'.

(** A working store that has its tables and the language columns [cols]. *)
Definition ready (cols : list string) (c : connection) : Prop :=
  failure c = None ∧ created (data c) = true ∧ cols ⊆ columns (data c).

(** The same, with the file of identifier [i] registered. *)
Definition ready_for (cols : list string) (i : Z) (c : connection) : Prop :=
  ready cols c ∧ i ∈ id <$> Files (data c).

(** A translation that names one of the columns [cols], and has a text when
    its column is the default language. *)
Definition plain_tran (cols : list string) (t : Translation) : Prop :=
  ∃ l, loc t = Some l
       ∧ language_name (format_language l) = true
       ∧ column_key (format_language l) ∈ cols
       ∧ (column_key (format_language l) = default_language → is_Some (text t)).

(** A text item with a position, a base text in the default language and
    translations into the columns [cols]. *)
Definition plain_item (cols : list string) (ti : TextItem) : Prop :=
  is_Some (Position ti)
  ∧ (∃ b, loc (base ti) = Some b
          ∧ language_name (format_language b) = true
          ∧ column_key (format_language b) = default_language)
  ∧ is_Some (text (base ti))
  ∧ Forall (plain_tran cols) (trans ti).

Definition plain_file (cols : list string) (f : FileElement) : Prop :=
  is_Some (Filepath f) ∧ Forall (plain_item cols) (TextItems f).

Definition plain_document (cols : list string) (lg : Document) : Prop :=
  is_Some (ProjName lg) ∧ Forall (plain_file cols) (FileElements lg).

(** An archive whose first document has a translation, and whose documents
    translate into the language of that translation or into [cols]. *)
Definition plain_archive (cols : list string) (files : list Document) : Prop :=
  ∃ first rest t others l,
    files = first :: rest ∧ document_trans first = t :: others ∧ loc t = Some l
    ∧ Forall (plain_document (column_key (format_language l) :: cols)) files.

(** The statements that change the schema. *)
Definition schema_statement (s : statement) : bool :=
  match s with
  | CreateTables | AddColumn _ => true
  | _ => false
  end.

(** A property of the connection that the engine keeps as long as no
    statement changes the schema. *)
Record kept_by_data (I : connection → Prop) : Prop := {
  schema_free_started : ∀ s c, schema_statement s = false → I c → I (started s c);
  schema_free_step : ∀ s c d cur, schema_statement s = false → I c →
              prepare (data c) s = None → step (data c) s = inr (d, cur) →
              I (with_data (started s c) d);
  schema_free_commit : ∀ c, I c → I (commit c);
  schema_free_rollback : ∀ c, I c → I (rollback c)
}.

(** The database has the language columns [S], and its tables or not. *)
Definition same_schema (S : list string) (b : bool) (d : database) : Prop :=
  columns d = S ∧ created d = b.

(** ** Locale codes that name language columns *)

(** A [base] or [tran] element whose locale code, when it has one, names a
    language column. *)
Definition names_language (e : Translation) : bool :=
  match loc e with
  | Some l => language_name (format_language l)
  | None => true
  end.

Definition item_names_languages (ti : TextItem) : bool :=
  names_language (base ti) && forallb names_language (trans ti).

Definition document_names_languages (lg : Document) : bool :=
  forallb (λ f, forallb item_names_languages (TextItems f)) (FileElements lg).

(** A call in which every locale code names a language column. *)
Definition call_names_languages (k : call) : bool :=
  match k with
  | CreateTable | AddFile _ _ => true
  | AddLanguage language => language_name language
  | AddTextItem text_item _ => item_names_languages text_item
  | AddLocalizationProject lg => document_names_languages lg
  | Convert files => forallb document_names_languages files
  | Main filenames => forallb (forallb document_names_languages) filenames
  end.

(** * Properties *)

(** ** The monad *)

Lemma bind_inv {A B} (m : M A) (k : A → M B) c o c' t :
  bind m k c = (o, c', t) →
  (∃ a c1 t1 t2, m c = (Return a, c1, t1) ∧ k a c1 = (o, c', t2) ∧ t = t1 ++ t2)
  ∨ (∃ e, m c = (Raise e, c', t) ∧ o = Raise e).
Proof.
  unfold bind. destruct (m c) as [[[a|e] c1] t1].
  - destruct (k a c1) as [[o2 c2] t2] eqn:Hk. intros [= <- <- <-].
    left. by exists a, c1, t1, t2.
  - intros [= <- <- <-]. right. by exists e.
Qed.

Lemma with_db_inv {A} (m : M A) c o c' t :
  with_db m c = (o, c', t) →
  (∃ a c1 t1, m c = (Return a, c1, t1) ∧ o = Return a
              ∧ c' = commit c1 ∧ t = t1 ++ [Committed])
  ∨ (∃ e c1 t1, m c = (Raise e, c1, t1) ∧ o = Raise e
                ∧ c' = rollback c1 ∧ t = t1 ++ [RolledBack]).
Proof.
  unfold with_db. destruct (m c) as [[[a|e] c1] t1]; intros [= <- <- <-].
  - left. by exists a, c1, t1.
  - right. by exists e, c1, t1.
Qed.

Lemma bind_ret {A B} (a : A) (k : A → M B) c : bind (ret a) k c = k a c.
Proof. unfold bind, ret. by destruct (k a c) as [[? ?] ?]. Qed.

Lemma log_bind {A B} (m : M A) (k : A → M B) c :
  log (bind m k) c
  = log m c ++ match result m c with
               | Return a => log (k a) (run m c)
               | Raise _ => []
               end.
Proof.
  unfold log, result, run, bind. destruct (m c) as [[[a|e] c1] t1]; simpl.
  - by destruct (k a c1) as [[? ?] ?].
  - by rewrite app_nil_r.
Qed.

Lemma execute_inv s c o c' t :
  execute s c = (o, c', t) →
  (∃ e, failure c = Some e ∧ o = Raise e ∧ c' = c ∧ t = [Failed s e])
  ∨ (∃ e, failure c = None ∧ prepare (data c) s = Some e
          ∧ o = Raise e ∧ c' = c ∧ t = [Failed s e])
  ∨ (∃ e, failure c = None ∧ prepare (data c) s = None
          ∧ step (data c) s = inl e
          ∧ o = Raise e ∧ c' = started s c ∧ t = [Failed s e])
  ∨ (∃ d cur, failure c = None ∧ prepare (data c) s = None
          ∧ step (data c) s = inr (d, cur)
          ∧ o = Return cur ∧ c' = with_data (started s c) d
          ∧ t = [Executed s (rowcount cur)]).
Proof.
  unfold execute, started. destruct (failure c) as [e|] eqn:Hf.
  { intros [= <- <- <-]. left. by exists e. }
  destruct (prepare (data c) s) as [e|] eqn:Hp.
  { intros [= <- <- <-]. right. left. by exists e. }
  assert (Hd : data (if is_dml s then begin c else c) = data c)
    by (by destruct (is_dml s)).
  rewrite Hd. destruct (step (data c) s) as [e|[d cur]] eqn:Hs.
  - intros [= <- <- <-]. right. right. left. by exists e.
  - intros [= <- <- <-]. right. right. right. by exists d, cur.
Qed.

Section Combinators.
Variable I : connection → Prop.
Variable E : event → Prop.

Lemma respects_ret {A} (a : A) : respects I E (ret a).
Proof. intros c o c' t HI [= <- <- <-]. by split. Qed.

Lemma respects_raise {A} e : respects I E (@raise A e).
Proof. intros c o c' t HI [= <- <- <-]. by split. Qed.

Lemma respects_bind {A B} (m : M A) (k : A → M B) :
  respects I E m → (∀ a, respects I E (k a)) → respects I E (bind m k).
Proof.
  intros Hm Hk c o c' t HI Hrun.
  apply bind_inv in Hrun as [(a & c1 & t1 & t2 & H1 & H2 & ->)|(e & H1 & ->)].
  - destruct (Hm _ _ _ _ HI H1) as [HI1 Ht1].
    destruct (Hk a _ _ _ _ HI1 H2) as [HI2 Ht2].
    split; [done|]. by apply Forall_app.
  - by apply (Hm _ _ _ _ HI H1).
Qed.

Lemma respects_for_each {A} (l : list A) (body : A → M unit) :
  (∀ x, x ∈ l → respects I E (body x)) → respects I E (for_each l body).
Proof.
  induction l as [|x l IH]; intros Hbody; simpl.
  - apply respects_ret.
  - apply respects_bind.
    + apply Hbody. by left.
    + intros _. apply IH. intros y Hy. apply Hbody. by right.
Qed.

Lemma respects_try_except {A} (m : M A) handler :
  respects I E m →
  (∀ e h, handler e = Some h → respects I E h) →
  respects I E (try_except m handler).
Proof.
  intros Hm Hh c o c' t HI. unfold try_except.
  destruct (m c) as [[[a|e] c1] t1] eqn:H1.
  - intros [= <- <- <-]. by apply (Hm _ _ _ _ HI H1).
  - destruct (Hm _ _ _ _ HI H1) as [HI1 Ht1].
    destruct (handler e) as [h|] eqn:He.
    + destruct (h c1) as [[o2 c2] t2] eqn:H2. intros [= <- <- <-].
      destruct (Hh _ _ He _ _ _ _ HI1 H2) as [HI2 Ht2].
      split; [done|]. by apply Forall_app.
    + by intros [= <- <- <-].
Qed.

Lemma respects_with_db {A} (m : M A) :
  (∀ c, I c → I (commit c)) → (∀ c, I c → I (rollback c)) →
  E Committed → E RolledBack →
  respects I E m → respects I E (with_db m).
Proof.
  intros Hc Hr Ec Er Hm c o c' t HI Hrun.
  apply with_db_inv in Hrun
    as [(a & c1 & t1 & H1 & -> & -> & ->)|(e & c1 & t1 & H1 & -> & -> & ->)];
    destruct (Hm _ _ _ _ HI H1) as [HI1 Ht1].
  - split; [by apply Hc|]. apply Forall_app. split; [done|]. by constructor.
  - split; [by apply Hr|]. apply Forall_app. split; [done|]. by constructor.
Qed.

Lemma respects_execute s :
  (∀ c, I c → I (started s c)) →
  (∀ c d cur, I c → I (started s c) → prepare (data c) s = None →
              step (data c) s = inr (d, cur) → I (with_data (started s c) d)) →
  (∀ ev, statement_of ev = Some s → E ev) →
  respects I E (execute s).
Proof.
  intros Hb Hs He c o c' t HI Hrun.
  apply execute_inv in Hrun
    as [(e & _ & -> & -> & ->)|[(e & _ & _ & -> & -> & ->)
       |[(e & _ & Hp & Hst & -> & -> & ->)|(d & cur & _ & Hp & Hst & -> & -> & ->)]]].
  - split; [done|]. constructor; [by apply He|done].
  - split; [done|]. constructor; [by apply He|done].
  - split; [by apply Hb|]. constructor; [by apply He|done].
  - split; [by eapply Hs; eauto|]. constructor; [by apply He|done].
Qed.
End Combinators.

(** ** The functions of the script, generically *)

Section Script.
Variable I : connection → Prop.
Variable E : event → Prop.
Hypothesis I_kept : kept I.
Hypothesis E_data : ∀ ev, ¬ schema_event ev → E ev.

Lemma respects_statement s :
  (∀ ev, statement_of ev = Some s → E ev) → respects I E (execute s).
Proof.
  intros He. apply respects_execute; [|by intros; eapply kept_step|done].
  intros c. by apply kept_started.
Qed.

Lemma E_of_data s :
  s ≠ CreateTables → (∀ l, s ≠ AddColumn l) →
  ∀ ev, statement_of ev = Some s → E ev.
Proof.
  intros H1 H2 ev Hev. apply E_data. intros [H|[l H]]; congruence.
Qed.

Lemma E_Committed : E Committed.
Proof. apply E_data. intros [H|[l H]]; discriminate. Qed.

Lemma E_RolledBack : E RolledBack.
Proof. apply E_data. intros [H|[l H]]; discriminate. Qed.

Lemma respects_transaction {A} (m : M A) :
  respects I E m → respects I E (with_db m).
Proof.
  apply respects_with_db;
    [apply I_kept|apply I_kept|apply E_Committed|apply E_RolledBack].
Qed.

Lemma respects_language_of e : respects I E (language_of e).
Proof.
  unfold language_of. destruct (loc e);
    [apply respects_ret|apply respects_raise].
Qed.

Lemma respects_add_file project path : respects I E (add_file project path).
Proof.
  unfold add_file. apply respects_bind.
  { apply respects_statement, E_of_data; done. }
  intros cur. destruct (rows cur); [|apply respects_ret].
  apply respects_transaction, respects_bind.
  { apply respects_statement, E_of_data; done. }
  intros ?. apply respects_ret.
Qed.

Lemma respects_merge_tran f p d bl bv tran :
  respects I E (merge_tran f p d bl bv tran).
Proof.
  unfold merge_tran. apply respects_bind; [apply respects_language_of|].
  intros tl. apply respects_bind.
  { apply respects_statement, E_of_data; done. }
  intros cur. case_decide; [|apply respects_ret].
  apply respects_bind; [|intros ?; apply respects_ret].
  apply respects_statement, E_of_data; done.
Qed.

Lemma respects_add_text_item ti f : respects I E (add_text_item ti f).
Proof.
  unfold add_text_item. apply respects_bind; [apply respects_language_of|].
  intros bl. apply respects_transaction, respects_for_each.
  intros tran _. apply respects_merge_tran.
Qed.

Lemma respects_add_localization_project lg :
  respects I E (add_localization_project lg).
Proof.
  unfold add_localization_project. apply respects_for_each. intros f _.
  apply respects_bind; [apply respects_add_file|].
  intros i. apply respects_for_each. intros ti _.
  apply respects_add_text_item.
Qed.

(** The functions that change the schema need [E] of their statements. *)
Hypothesis E_schema : ∀ ev, schema_event ev → E ev.

Lemma E_all ev : E ev.
Proof.
  destruct (statement_of ev) as [s|] eqn:Hs.
  - destruct s; try (apply E_data; intros [H|[l H]]; congruence);
      apply E_schema; [by left|right; eauto].
  - apply E_data. intros [H|[l H]]; congruence.
Qed.

Lemma respects_add_language language : respects I E (add_language language).
Proof.
  unfold add_language. apply respects_transaction, respects_try_except.
  - apply respects_bind; [|intros ?; apply respects_ret].
    apply respects_statement. intros; apply E_all.
  - intros e h He. destruct e; simplify_eq. apply respects_ret.
Qed.

Lemma respects_get_language lg : respects I E (get_language lg).
Proof.
  unfold get_language. destruct (document_trans lg);
    [apply respects_raise|apply respects_language_of].
Qed.

Lemma respects_convert files : respects I E (convert files).
Proof.
  unfold convert. destruct files as [|first rest]; [apply respects_raise|].
  apply respects_bind; [apply respects_get_language|]. intros language.
  apply respects_bind; [apply respects_add_language|]. intros _.
  apply respects_for_each. intros lg _.
  apply respects_add_localization_project.
Qed.

Lemma respects_create_table : respects I E create_table.
Proof.
  unfold create_table. apply respects_transaction, respects_bind;
    [|intros ?; apply respects_ret].
  intros c o c' t HI Hrun. unfold executescript in Hrun.
  apply (respects_statement CreateTables (λ ev _, E_all ev) (commit c) o c' t);
    [by apply kept_commit|done].
Qed.

Lemma respects_main filenames : respects I E (main filenames).
Proof.
  unfold main. apply respects_bind; [apply respects_create_table|].
  intros _. apply respects_for_each. intros files _. apply respects_convert.
Qed.

Lemma respects_perform k : respects I E (perform k).
Proof.
  destruct k; simpl;
    [apply respects_create_table|apply respects_add_language| |
     apply respects_add_text_item|apply respects_add_localization_project|
     apply respects_convert|apply respects_main].
  apply respects_bind; [apply respects_add_file|intros ?; apply respects_ret].
Qed.

Lemma perform_all_kept ks c : I c → I (perform_all ks c).
Proof.
  revert c. induction ks as [|k ks IH]; intros c HI; [done|].
  simpl. apply IH. unfold run.
  destruct (perform k c) as [[o c1] t1] eqn:Hk.
  by apply (respects_perform k _ _ _ _ HI Hk).
Qed.
End Script.

(** ** Properties of the database that no statement breaks *)

Lemma data_started s c : data (started s c) = data c.
Proof. unfold started. by destruct (is_dml s). Qed.

Lemma failure_started s c : failure (started s c) = failure c.
Proof. unfold started. by destruct (is_dml s). Qed.

Lemma saved_started s c :
  saved (started s c) = saved c ∨ (saved c = None ∧ saved (started s c) = Some (data c)).
Proof.
  unfold started. destruct (is_dml s); [|by left]. simpl.
  destruct (saved c); [by left|by right].
Qed.

Lemma lifted_kept P : stable P → kept (lifted P).
Proof.
  intros HP. split.
  - intros s c [Hd Hs]. split; [by rewrite data_started|].
    intros d Hd'. destruct (saved_started s c) as [Heq|[_ Heq]].
    + apply Hs. by rewrite <- Heq.
    + rewrite Heq in Hd'. by simplify_eq.
  - intros s c d cur [Hd Hs] Hp Hst. split; [by eapply HP|].
    simpl. intros d0 Hd0. destruct (saved_started s c) as [Heq|[_ Heq]].
    + apply Hs. by rewrite <- Heq.
    + rewrite Heq in Hd0. by simplify_eq.
  - intros c [Hd Hs]. by split.
  - intros c [Hd Hs]. split; [|done]. simpl.
    destruct (saved c) as [d|]; simpl; [by apply Hs|done].
Qed.

Lemma lifted_idle (P : database → Prop) c : idle c → P (data c) → lifted P c.
Proof. intros Hi Hd. split; [done|]. intros d. by rewrite Hi. Qed.

Lemma slot_set_text name v r : slot (set_text name v r) = slot r.
Proof. done. Qed.

Lemma at_slot_set_text f p name v r : at_slot f p (set_text name v r) ↔ at_slot f p r.
Proof. done. Qed.

Lemma at_slot_slot f p r : at_slot f (Some p) r ↔ slot r = (f, p).
Proof.
  unfold at_slot, slot. split.
  - intros [-> [= ->]]. done.
  - intros [= -> ->]. done.
Qed.

Lemma unique_slots_stable : stable unique_slots.
Proof.
  intros s d d' cur Hu Hp Hs. unfold unique_slots in *.
  destruct s as [|p|pj p|c v f p|f p desc b bv t tv|c]; simpl in Hs.
  - simplify_eq. destruct (created d); [done|]. simpl. constructor.
  - by simplify_eq.
  - destruct pj as [pj|], p as [p|]; try done.
    case_bool_decide; by simplify_eq.
  - case_bool_decide; simplify_eq. simpl. unfold update_rows.
    rewrite <- list_fmap_compose.
    erewrite list_fmap_ext; [exact Hu|].
    intros i r _. simpl. by case_decide.
  - destruct p as [p|]; [|done].
    repeat (case_bool_decide; [done|]). simplify_eq. simpl.
    rewrite fmap_app. simpl. apply NoDup_app. split; [done|].
    split; [|apply NoDup_singleton].
    intros x Hx Hx'. apply list_elem_of_singleton in Hx'. subst x.
    match goal with H : ¬ (_ ∈ slot <$> _) |- _ => apply H end.
    exact Hx.
  - by simplify_eq.
Qed.

Lemma filter_at_slot_nil f p (l : list LocalizationRow) :
  (f, p) ∉ slot <$> l → filter (at_slot f (Some p)) l = [].
Proof.
  intros Hn. induction l as [|r l IH]; [done|].
  rewrite filter_cons. case_decide as Hr.
  - exfalso. apply Hn. apply at_slot_slot in Hr. rewrite <- Hr.
    apply list_elem_of_fmap. exists r. split; [done|by left].
  - apply IH. intros Hin. apply Hn. rewrite fmap_cons. by right.
Qed.

Lemma at_most_one_record d f p :
  unique_slots d → (length (filter (at_slot f p) (Localizations d)) ≤ 1)%nat.
Proof.
  unfold unique_slots. generalize (Localizations d). intros l Hu.
  destruct p as [p|]; cycle 1.
  { induction l as [|r l IH]; [simpl; lia|].
    rewrite filter_cons. case_decide as Hr; [by destruct Hr|].
    apply IH. by inversion Hu. }
  induction l as [|r l IH]; [simpl; lia|].
  rewrite fmap_cons in Hu. apply NoDup_cons in Hu as [Hr Hu].
  rewrite filter_cons. case_decide as Hat.
  - apply at_slot_slot in Hat. rewrite Hat in Hr.
    rewrite (filter_at_slot_nil _ _ _ Hr). simpl. lia.
  - by apply IH.
Qed.

(** C3.  Uniqueness: on a connection whose records occupy distinct
    (file_id, position) slots, whatever calls of the script are made, in
    whatever order and whether they return or raise, the store holds at most
    one record for every (file_id, position) pair.  The store of
    [create_table] is such a connection. *)
Theorem slots_stay_unique (ks : list call) (c : connection) (f : Z) (p : option string) :
  idle c → unique_slots (data c) →
  (length (filter (at_slot f p) (Localizations (data (perform_all ks c)))) ≤ 1)%nat.
Proof.
  intros Hi Hu. apply at_most_one_record.
  apply (perform_all_kept (lifted unique_slots) (λ _, True)).
  - apply lifted_kept, unique_slots_stable.
  - done.
  - done.
  - by apply lifted_idle.
Qed.

Lemma slots_stay_unique_witness :
  idle (connect blank) ∧ unique_slots (data (connect blank)) ∧
  (length (filter (at_slot 1 (Some "0"))
     (Localizations (data (perform_all
        [CreateTable; AddLanguage "fr"; AddFile (Some "App") (Some "A/B.strings");
         AddTextItem (item "0" "title" (tr "en" "Hello") [tr "fr" "Bonjour"]) 1;
         AddTextItem (item "0" "title" (tr "en" "Hello") [tr "fr" "Bonjour"]) 1]
        (connect blank))))) ≤ 1)%nat.
Proof.
  split; [reflexivity|]. split; [constructor|].
  apply slots_stay_unique; [reflexivity|constructor].
Defined.

(** ** The schema *)

Lemma keeps_columns_stable S : stable (keeps_columns S).
Proof.
  intros s d d' cur [Hc HS] Hp Hs.
  destruct s as [|p|pj p|c v f p|f p desc b bv t tv|c]; simpl in Hs.
  - rewrite Hc in Hs. by simplify_eq.
  - by simplify_eq.
  - destruct pj as [pj|], p as [p|]; try done.
    case_bool_decide; by simplify_eq.
  - case_bool_decide; by simplify_eq.
  - destruct p as [p|]; [|done].
    repeat (case_bool_decide; [done|]). by simplify_eq.
  - simplify_eq. split; [done|]. simpl.
    intros x Hx. apply elem_of_app. left. by apply HS.
Qed.

Lemma prepare_operational d s e :
  prepare d s = Some e → ∃ why, e = OperationalError why.
Proof.
  destruct s; simpl; intros H; repeat case_match; simplify_eq; eauto.
Qed.

Lemma add_language_run language c :
  run (add_language language) c =
  match failure c with
  | Some (OperationalError _) => commit c
  | Some _ => rollback c
  | None =>
      match prepare (data c) (AddColumn language) with
      | Some _ => commit c
      | None => commit (with_data c
                  (with_columns (data c) (columns (data c) ++ [column_key language])))
      end
  end.
Proof.
  unfold run, add_language, with_db, try_except, mbind, M_bind, bind, execute.
  destruct (failure c) as [e|] eqn:Hf.
  { by destruct e. }
  destruct (prepare (data c) (AddColumn language)) as [e|] eqn:Hp.
  - apply prepare_operational in Hp as [w ->]. done.
  - done.
Qed.

Lemma add_language_twice language c :
  run (add_language language) (run (add_language language) c)
  = run (add_language language) c.
Proof.
  rewrite (add_language_run language c).
  destruct (failure c) as [e|] eqn:Hf.
  { destruct e; rewrite add_language_run;
      cbn [failure commit rollback]; by rewrite Hf. }
  destruct (prepare (data c) (AddColumn language)) as [e|] eqn:Hp.
  - rewrite add_language_run. cbn [failure commit data]. by rewrite Hf, Hp.
  - rewrite add_language_run. cbn [failure commit data with_data]. rewrite Hf.
    set (d := with_columns _ _).
    assert (prepare d (AddColumn language)
            = Some (OperationalError duplicate_column_name)) as ->; [|done].
    simpl in Hp |- *. unfold has_column in *. subst d. simpl.
    destruct (language_name language); [|done]. simpl in *.
    destruct (created (data c)); [|done]. simpl in *.
    rewrite bool_decide_eq_true_2; [done|].
    apply elem_of_app. right. by left.
Qed.

(** Every call of the script leaves the connection without an open
    transaction when it found it so. *)

Lemma forall_any_event t : Forall any_event t.
Proof. by apply Forall_forall. Qed.

Lemma idle_with_db {A} (m : M A) : respects idle any_event (with_db m).
Proof.
  intros c o c' t _ Hrun. split; [|apply forall_any_event].
  apply with_db_inv in Hrun
    as [(a & c1 & t1 & _ & _ & -> & _)|(e & c1 & t1 & _ & _ & -> & _)]; done.
Qed.

Lemma idle_query s : is_dml s = false → respects idle any_event (execute s).
Proof.
  intros Hs. apply respects_execute.
  - intros c. unfold started. by rewrite Hs.
  - intros c d cur Hi _ _ _. unfold started. by rewrite Hs.
  - done.
Qed.

Lemma idle_language_of e : respects idle any_event (language_of e).
Proof.
  unfold language_of. destruct (loc e); [apply respects_ret|apply respects_raise].
Qed.

Lemma idle_add_file project path : respects idle any_event (add_file project path).
Proof.
  unfold add_file. apply respects_bind; [by apply idle_query|].
  intros cur. destruct (rows cur); [apply idle_with_db|apply respects_ret].
Qed.

Lemma idle_add_text_item ti f : respects idle any_event (add_text_item ti f).
Proof.
  unfold add_text_item. apply respects_bind; [apply idle_language_of|].
  intros bl. apply idle_with_db.
Qed.

Lemma idle_add_localization_project lg :
  respects idle any_event (add_localization_project lg).
Proof.
  unfold add_localization_project. apply respects_for_each. intros f _.
  apply respects_bind; [apply idle_add_file|].
  intros i. apply respects_for_each. intros ti _. apply idle_add_text_item.
Qed.

Lemma idle_convert files : respects idle any_event (convert files).
Proof.
  unfold convert. destruct files as [|first rest]; [apply respects_raise|].
  apply respects_bind.
  { unfold get_language. destruct (document_trans first);
      [apply respects_raise|apply idle_language_of]. }
  intros language. apply respects_bind; [apply idle_with_db|]. intros _.
  apply respects_for_each. intros lg _. apply idle_add_localization_project.
Qed.

Lemma idle_perform k : respects idle any_event (perform k).
Proof.
  destruct k; simpl.
  - apply idle_with_db.
  - apply idle_with_db.
  - apply respects_bind; [apply idle_add_file|intros ?; apply respects_ret].
  - apply idle_add_text_item.
  - apply idle_add_localization_project.
  - apply idle_convert.
  - apply respects_bind; [apply idle_with_db|]. intros _.
    apply respects_for_each. intros files _. apply idle_convert.
Qed.

Lemma perform_all_idle ks c : idle c → idle (perform_all ks c).
Proof.
  revert c. induction ks as [|k ks IH]; intros c Hi; [done|].
  simpl. apply IH. unfold run.
  destruct (perform k c) as [[o c1] t1] eqn:Hk.
  by apply (idle_perform k _ _ _ _ Hi Hk).
Qed.

Lemma perform_all_app ks1 ks2 c :
  perform_all (ks1 ++ ks2) c = perform_all ks2 (perform_all ks1 c).
Proof. apply foldl_app. Qed.

Lemma perform_all_keeps_columns S ks c :
  idle c → keeps_columns S (data c) → keeps_columns S (data (perform_all ks c)).
Proof.
  intros Hi HS.
  apply (perform_all_kept (lifted (keeps_columns S)) any_event); try done.
  - apply lifted_kept, keeps_columns_stable.
  - by apply lifted_idle.
Qed.

(** C8.  Schema monotonicity: in a run of calls of the script on a store
    that [create_table] has set up, the language columns present at any
    point of the run are still present at every later point.  Idempotence of
    [add_language]: a second call with the same identifier leaves the
    connection, hence the schema, exactly as the first call left it. *)
Theorem columns_never_shrink :
  (∀ ks1 ks2 c, idle c → created (data c) = true →
     columns (data (perform_all ks1 c)) ⊆ columns (data (perform_all (ks1 ++ ks2) c)))
  ∧ (∀ language c,
       run (add_language language) (run (add_language language) c)
       = run (add_language language) c).
Proof.
  split; [|apply add_language_twice].
  intros ks1 ks2 c Hi Hc. rewrite perform_all_app.
  pose proof (perform_all_idle ks1 c Hi) as Hi1.
  pose proof (perform_all_keeps_columns [] ks1 c Hi) as [Hc1 _].
  { split; [done|]. intros x Hx. by apply elem_of_nil in Hx. }
  by apply (perform_all_keeps_columns _ ks2 _ Hi1).
Qed.

Lemma columns_never_shrink_witness :
  idle new_store ∧ created (data new_store) = true ∧
  columns (data (perform_all [AddLanguage "fr"] new_store))
  ⊆ columns (data (perform_all ([AddLanguage "fr"] ++ [AddLanguage "de"; AddLanguage "fr"])
                     new_store)).
Proof.
  split; [reflexivity|]. split; [reflexivity|].
  apply (proj1 columns_never_shrink); reflexivity.
Defined.

(** ** Transactions *)

Lemma within_execute c0 s :
  idle c0 → is_dml s = true → respects (within c0) statement_event (execute s).
Proof.
  intros Hi Hs. apply respects_execute.
  - intros c [Hf Hc]. unfold started. rewrite Hs. split; [done|]. right.
    destruct Hc as [->|Hc]; simpl; [by rewrite Hi|by rewrite Hc].
  - intros c d cur _ [Hf Hc] _ _. split; [done|]. right. simpl.
    destruct Hc as [Hc|Hc]; [|done].
    unfold started in Hc. rewrite Hs in Hc. rewrite <- Hc in Hi.
    unfold idle in Hi. simpl in Hi. by destruct (saved c).
  - intros ev Hev. unfold statement_event. by rewrite Hev.
Qed.

Lemma within_merge_tran c0 f p d bl bv tran :
  idle c0 → respects (within c0) statement_event (merge_tran f p d bl bv tran).
Proof.
  intros Hi. unfold merge_tran. apply respects_bind.
  { unfold language_of. destruct (loc tran);
      [apply respects_ret|apply respects_raise]. }
  intros tl. apply respects_bind; [by apply within_execute|].
  intros cur. case_decide; [|apply respects_ret].
  apply respects_bind; [by apply within_execute|intros ?; apply respects_ret].
Qed.

Lemma within_refl c : within c c.
Proof. split; [done|by left]. Qed.

Lemma within_merge_all c0 f p d bl bv l c o c' t :
  idle c0 → within c0 c →
  for_each l (merge_tran f p d bl bv) c = (o, c', t) →
  within c0 c' ∧ Forall statement_event t.
Proof.
  intros Hi Hw Hrun.
  eapply (respects_for_each (within c0) statement_event); [|exact Hw|exact Hrun].
  intros x _. by apply within_merge_tran.
Qed.

Lemma within_rollback c0 c : idle c0 → within c0 c → rollback c = c0.
Proof.
  intros Hi [Hf [->|Hs]]; destruct c0 as [d0 s0 f0]; unfold idle in Hi;
    simpl in *; subst s0; [done|].
  unfold rollback. rewrite Hs, Hf. done.
Qed.

Lemma lookup_snoc_statement (t : list event) (last ev : event) (i : nat) :
  Forall statement_event t → ¬ statement_event last →
  (t ++ [last]) !! i = Some ev → ¬ statement_event ev →
  S i = length (t ++ [last]).
Proof.
  intros Ht Hl Hi Hev. rewrite length_app. simpl.
  destruct (decide (i < length t)%nat) as [Hlt|Hge].
  - rewrite lookup_app_l in Hi by done.
    exfalso. apply Hev. eapply Forall_lookup_1; eauto.
  - apply lookup_lt_Some in Hi. rewrite length_app in Hi. simpl in Hi. lia.
Qed.

(** C10.  Per-text-item atomicity: [add_text_item], entered without an open
    transaction, runs all its statements in one transaction (the only event
    of its log that is not a statement is the last one, the commit or the
    rollback); when it raises, at whatever translation, the connection is
    back to what it was on entry, so none of the writes of the item
    persists; and it leaves no transaction open, so that what an earlier
    item committed is out of reach of the rollback of a later one. *)
Theorem add_text_item_all_or_nothing ti f c o c' t :
  idle c → add_text_item ti f c = (o, c', t) →
  idle c'
  ∧ (∀ e, o = Raise e → c' = c)
  ∧ (∀ i ev, t !! i = Some ev → ¬ statement_event ev → S i = length t).
Proof.
  intros Hi Hrun. split; [by apply (idle_add_text_item ti f _ _ _ _ Hi Hrun)|].
  unfold add_text_item in Hrun.
  apply bind_inv in Hrun as [(bl & c1 & t1 & t2 & H1 & H2 & ->)|(e & H1 & ->)].
  - assert (c1 = c ∧ t1 = []) as [-> ->].
    { unfold language_of, ret, raise in H1.
      destruct (loc (base ti)); by simplify_eq. }
    simpl.
    apply with_db_inv in H2
      as [(a & c2 & t3 & H3 & -> & -> & ->)|(e & c2 & t3 & H3 & -> & -> & ->)];
      destruct (within_merge_all _ _ _ _ _ _ _ _ _ _ _ Hi (within_refl c) H3)
        as [Hw Ht].
    + split; [done|]. intros i ev Hev Hn.
      eapply lookup_snoc_statement; eauto. by intros [? ?].
    + split; [intros ? _; by apply within_rollback|]. intros i ev Hev Hn.
      eapply lookup_snoc_statement; eauto. by intros [? ?].
  - unfold language_of, ret, raise in H1. destruct (loc (base ti)); simplify_eq.
    split; [done|]. intros i ev Hev. by rewrite lookup_nil in Hev.
Qed.

Lemma add_text_item_all_or_nothing_witness :
  let ti := item "0" "title" (tr "en" "Hello") [tr "fr" "Bonjour"; tr "nl" "Hallo"] in
  idle sample_store
  ∧ result (add_text_item ti 1) sample_store = Raise (OperationalError no_such_column)
  ∧ run (add_text_item ti 1) sample_store = sample_store.
Proof.
  intros ti. split; [reflexivity|]. split; [vm_compute; reflexivity|].
  refine (proj1 (proj2 (add_text_item_all_or_nothing ti 1 sample_store
            (result (add_text_item ti 1) sample_store)
            (run (add_text_item ti 1) sample_store)
            (log (add_text_item ti 1) sample_store) _ _)) _ _).
  - reflexivity.
  - unfold result, run, log. by destruct (add_text_item ti 1 sample_store) as [[? ?] ?].
  - vm_compute. reflexivity.
Defined.

(** ** The merge of one translation *)

Lemma texts_set_text name v r k :
  texts (set_text name v r) !! k
  = if decide (k = column_key name) then v else texts r !! k.
Proof.
  unfold set_text. simpl. destruct v as [t|]; case_decide as Hk.
  - subst k. apply lookup_insert_eq.
  - by apply lookup_insert_ne.
  - subst k. apply lookup_delete_eq.
  - by apply lookup_delete_ne.
Qed.

Lemma row_eq (r1 r2 : LocalizationRow) :
  file_id r1 = file_id r2 → position r1 = position r2 →
  description r1 = description r2 → (∀ k, texts r1 !! k = texts r2 !! k) →
  r1 = r2.
Proof.
  destruct r1, r2. simpl. intros -> -> -> Ht. f_equal. by apply map_eq.
Qed.

Lemma set_text_twice name v r : set_text name v (set_text name v r) = set_text name v r.
Proof.
  apply row_eq; try done. intros k. rewrite !texts_set_text. by case_decide.
Qed.

Lemma set_text_new_row f p desc b bv t tv :
  column_key t ≠ column_key b →
  set_text t tv (new_row f p desc b bv t tv) = new_row f p desc b bv t tv.
Proof.
  intros Hne. apply row_eq; try done. intros k. unfold new_row.
  rewrite !texts_set_text. repeat case_decide; congruence.
Qed.

Lemma filter_update_rows c v f p l :
  filter (at_slot f p) (update_rows c v f p l)
  = set_text c v <$> filter (at_slot f p) l.
Proof.
  unfold update_rows. induction l as [|r l IH]; [done|].
  rewrite fmap_cons, !filter_cons.
  destruct (decide (at_slot f p r)) as [Hr|Hr].
  - rewrite (decide_True (P := at_slot f p (set_text c v r))) by done.
    rewrite fmap_cons. by f_equal.
  - by rewrite (decide_False (P := at_slot f p r)) by done.
Qed.

Lemma update_rows_miss c v f p l :
  filter (at_slot f p) l = [] → update_rows c v f p l = l.
Proof.
  unfold update_rows. induction l as [|r l IH]; [done|].
  rewrite filter_cons, fmap_cons. case_decide as Hr; [done|].
  intros Hl. f_equal. by apply IH.
Qed.

Lemma update_rows_twice c v f p l :
  update_rows c v f p (update_rows c v f p l) = update_rows c v f p l.
Proof.
  unfold update_rows. rewrite <- list_fmap_compose. apply list_fmap_ext.
  intros i r _. simpl. destruct (decide (at_slot f p r)) as [Hr|Hr].
  - rewrite (decide_True (P := at_slot f p (set_text c v r))) by done.
    apply set_text_twice.
  - by rewrite (decide_False (P := at_slot f p r)) by done.
Qed.

Lemma prepare_with_Localizations d l s :
  prepare (with_Localizations d l) s = prepare d s.
Proof. by destruct s. Qed.

Lemma begin_begun c d : saved c = Some d → begin c = c.
Proof. intros Hs. destruct c as [d0 s0 f0]. simpl in Hs. by subst s0. Qed.

(** The update of [merge_tran] when it runs: what the call does when the
    engine accepts the statement and some record is at the slot. *)
Lemma merge_tran_update f p desc bl bv tran l c :
  loc tran = Some l → failure c = None →
  prepare (data c) (UpdateLocalization (format_language l) (text tran) f p) = None →
  filter (at_slot f p) (Localizations (data c)) ≠ [] →
  ¬ (column_key (format_language l) = default_language ∧ text tran = None) →
  merge_tran f p desc bl bv tran c
  = (Return tt,
     with_data (begin c)
       (with_Localizations (data c)
          (update_rows (format_language l) (text tran) f p (Localizations (data c)))),
     [Executed (UpdateLocalization (format_language l) (text tran) f p)
        (Z.of_nat (length (filter (at_slot f p) (Localizations (data c)))))]).
Proof.
  intros Hl Hf Hp Hhit Hnn.
  unfold merge_tran, language_of, mbind, M_bind, bind, ret, execute.
  rewrite Hl, Hf, Hp. simpl.
  rewrite bool_decide_eq_false_2 by tauto. simpl.
  rewrite decide_False; [done|].
  destruct (filter _ _); [done|]. simpl. lia.
Qed.

(** Inversion of [merge_tran]: the update fails, or it hits and nothing
    else is run, or it misses and the insert is run. *)
Lemma merge_tran_inv f p desc bl bv tran l c o c' t :
  loc tran = Some l →
  merge_tran f p desc bl bv tran c = (o, c', t) →
  let tl := format_language l in
  let update := UpdateLocalization tl (text tran) f p in
  let insert := InsertLocalization f p desc bl bv tl (text tran) in
  let hit := filter (at_slot f p) (Localizations (data c)) in
  (∃ e, o = Raise e ∧ data c' = data c ∧ t = [Failed update e])
  ∨ (hit ≠ [] ∧ failure c = None ∧ prepare (data c) update = None
     ∧ ¬ (column_key tl = default_language ∧ text tran = None)
     ∧ o = Return tt
     ∧ c' = with_data (begin c)
              (with_Localizations (data c)
                 (update_rows tl (text tran) f p (Localizations (data c))))
     ∧ t = [Executed update (Z.of_nat (length hit))])
  ∨ (hit = [] ∧ failure c = None ∧ prepare (data c) update = None
     ∧ ∃ e, o = Raise e ∧ c' = begin c
            ∧ (prepare (data c) insert = Some e ∨
               prepare (data c) insert = None ∧ step (data c) insert = inl e)
            ∧ t = [Executed update 0; Failed insert e])
  ∨ (hit = [] ∧ failure c = None ∧ prepare (data c) update = None
     ∧ prepare (data c) insert = None
     ∧ ∃ d cur, step (data c) insert = inr (d, cur)
                ∧ o = Return tt ∧ c' = with_data (begin c) d
                ∧ t = [Executed update 0; Executed insert 1]).
Proof.
  intros Hl Hrun. cbv zeta.
  unfold merge_tran, language_of in Hrun. rewrite Hl in Hrun.
  apply bind_inv in Hrun as [(a & c0 & t0 & t2 & H0 & Hrun & ->)|(e & H0 & _)];
    [|done].
  unfold ret in H0. simplify_eq. simpl.
  apply bind_inv in Hrun as [(cur & c1 & t1 & t3 & H1 & Hrun & ->)|(e & H1 & ->)].
  2: { left. exists e. split; [done|].
       apply execute_inv in H1
         as [(e' & _ & ? & -> & ->)|[(e' & _ & _ & ? & -> & ->)
            |[(e' & _ & _ & _ & ? & -> & ->)|(? & ? & _ & _ & _ & ? & _)]]];
         simplify_eq; rewrite ?data_started; done. }
  apply execute_inv in H1
    as [(e' & _ & ? & _)|[(e' & _ & _ & ? & _)
       |[(e' & _ & _ & _ & ? & _)|(d & cur' & Hf & Hp & Hs & ? & -> & ->)]]];
    simplify_eq.
  cbn [step] in Hs.
  case_bool_decide as Hnn; simplify_eq.
  cbn [rowcount] in Hrun |- *.
  destruct (decide (filter (at_slot f p) (Localizations (data c0)) = [])) as [Hhit|Hhit].
  - assert (Hz : Z.of_nat (length (filter (at_slot f p) (Localizations (data c0)))) = 0%Z)
      by (by rewrite Hhit).
    rewrite Hz in Hrun |- *. clear Hz.
    rewrite decide_True in Hrun by done.
    rewrite (update_rows_miss _ _ _ _ _ Hhit) in Hrun.
    match type of Hrun with _ ?c = _ =>
      assert (Hd : c = begin c0) by (unfold started; simpl; by destruct c0 as [[] ? ?]);
      rewrite Hd in Hrun; clear Hd end.
    match type of Hrun with (execute ?i ≫= _) _ = _ =>
      assert (Hb : started i (begin c0) = begin c0)
        by (unfold started, begin; simpl; by destruct (saved c0)) end.
    apply bind_inv in Hrun as [(cur & c1 & t1 & t4 & H1 & Hrun & ->)|(e & H1 & ->)].
    + unfold ret in Hrun. simplify_eq.
      apply execute_inv in H1
        as [(e' & Hf' & ? & _)|[(e' & _ & _ & ? & _)
           |[(e' & _ & _ & _ & ? & _)|(d & cur' & _ & Hp' & Hs' & ? & -> & ->)]]];
        simplify_eq.
      right. right. right. cbn [data begin] in Hp', Hs'.
      repeat (split; [done|]). exists d, cur'.
      split; [done|]. split; [done|]. rewrite Hb.
      split; [done|].
      assert (rowcount cur' = 1%Z) as ->; [|done].
      cbn [step] in Hs'.
      destruct p as [p|]; [|done]. repeat case_match; by simplify_eq.
    + right. right. left. repeat (split; [done|]). exists e. split; [done|].
      apply execute_inv in H1
        as [(e' & Hf' & ? & -> & ->)|[(e' & _ & Hp' & ? & -> & ->)
           |[(e' & _ & Hp' & Hs' & ? & -> & ->)|(? & ? & _ & _ & _ & ? & _)]]];
        simplify_eq.
      * simpl in Hf'. congruence.
      * split; [done|]. split; [by left|done].
      * rewrite Hb. split; [done|]. split; [by right|done].
  - right. left. rewrite decide_False in Hrun.
    2: { destruct (filter _ _); [done|]. simpl. lia. }
    unfold ret in Hrun. simplify_eq.
    repeat (split; [done|]). split; [tauto|]. done.
Qed.

Lemma with_data_begun c d :
  with_data (begin (with_data (begin c) d)) d = with_data (begin c) d.
Proof. unfold with_data, begin. simpl. by destruct (saved c). Qed.

Lemma step_insert_inv d f p desc b bv t tv d' cur :
  step d (InsertLocalization f p desc b bv t tv) = inr (d', cur) →
  ∃ p', p = Some p'
        ∧ (get_text default_language (new_row f p' desc b bv t tv) ≠ None)
        ∧ ((f, p') ∉ slot <$> Localizations d)
        ∧ (f ∈ id <$> Files d)
        ∧ d' = with_Localizations d (Localizations d ++ [new_row f p' desc b bv t tv]).
Proof.
  simpl. destruct p as [p|]; [|done].
  case_bool_decide as H1; [done|].
  case_bool_decide as H2; [done|].
  case_bool_decide as H3; [done|].
  intros ?. simplify_eq.
  exists p. split_and!; done.
Qed.

(** Idempotence of one turn of the loop: when the merge of a translation
    into the record at (file_id, position) has returned, on a store that
    respects the uniqueness of slots and for a target language whose column
    is not the column of the base language, merging the same translation
    again runs exactly one statement, the update, which reports one affected
    row (so no insert is run), and leaves the connection, hence the stored
    row, as the first merge left it. *)
Theorem merge_tran_idempotent f p desc bl bv tran l c c1 t1 :
  loc tran = Some l →
  column_key (format_language l) ≠ column_key bl →
  unique_slots (data c) →
  merge_tran f p desc bl bv tran c = (Return tt, c1, t1) →
  merge_tran f p desc bl bv tran c1
  = (Return tt, c1,
     [Executed (UpdateLocalization (format_language l) (text tran) f p) 1]).
Proof.
  intros Hl Hne Hu Hrun.
  apply (merge_tran_inv _ _ _ _ _ _ _ _ _ _ _ Hl) in Hrun
    as [(e & ? & _)|[(Hhit & Hf & Hp & Hnn & _ & -> & _)
       |[(_ & _ & _ & e & ? & _)|(Hhit & Hf & Hp & Hp' & d & cur & Hs & _ & -> & _)]]];
    try done.
  - rewrite (merge_tran_update _ _ _ _ _ _ _ _ Hl).
    + cbn [data with_data Localizations with_Localizations].
      rewrite update_rows_twice, filter_update_rows, length_fmap.
      f_equal; [f_equal; apply with_data_begun|].
      pose proof (at_most_one_record (data c) f p Hu) as Hle.
      destruct (filter (at_slot f p) (Localizations (data c))) as [|r [|r' rs]];
        simpl in *; [done|done|lia].
    + done.
    + cbn [data with_data]. by rewrite prepare_with_Localizations.
    + cbn [data with_data Localizations with_Localizations].
      rewrite filter_update_rows.
      destruct (filter (at_slot f p) (Localizations (data c))); done.
    + done.
  - apply step_insert_inv in Hs as (p' & -> & Hen & Hslot & _ & ->).
    assert (Hr : at_slot f (Some p') (new_row f p' desc bl bv (format_language l) (text tran)))
      by done.
    rewrite (merge_tran_update _ _ _ _ _ _ _ _ Hl).
    + cbn [data with_data Localizations with_Localizations].
      rewrite filter_app, Hhit, filter_cons, decide_True by done.
      unfold update_rows. rewrite fmap_app.
      fold (update_rows (format_language l) (text tran) f (Some p')
              (Localizations (data c))).
      rewrite (update_rows_miss _ _ _ _ _ Hhit). simpl.
      rewrite decide_True by done. rewrite (set_text_new_row _ _ _ _ _ _ _ Hne).
      f_equal. f_equal. apply with_data_begun.
    + done.
    + cbn [data with_data]. by rewrite prepare_with_Localizations.
    + cbn [data with_data Localizations with_Localizations].
      rewrite filter_app, Hhit, filter_cons, decide_True by done. done.
    + intros [Hk Hv]. apply Hen. unfold get_text, new_row.
      rewrite Hv, !texts_set_text.
      change (column_key default_language) with default_language.
      rewrite decide_False by congruence.
      by rewrite decide_True by done.
Qed.

Lemma merge_tran_idempotent_witness :
  let tran := tr "fr" "Bonjour" in
  let merge := merge_tran 1 (Some "0") (Some "title") "en" (Some "Hello") tran in
  loc tran = Some "fr"
  ∧ column_key (format_language "fr") ≠ column_key "en"
  ∧ unique_slots (data sample_store)
  ∧ merge sample_store = (Return tt, run merge sample_store, log merge sample_store)
  ∧ merge (run merge sample_store)
    = (Return tt, run merge sample_store,
       [Executed (UpdateLocalization "fr" (Some "Bonjour") 1 (Some "0")) 1]).
Proof.
  intros tran merge.
  assert (H1 : loc tran = Some "fr") by reflexivity.
  assert (H2 : column_key (format_language "fr") ≠ column_key "en")
    by (vm_compute; discriminate).
  assert (H3 : unique_slots (data sample_store)) by (vm_compute; constructor).
  assert (H4 : merge sample_store
               = (Return tt, run merge sample_store, log merge sample_store))
    by (vm_compute; reflexivity).
  repeat (split; [assumption|]).
  exact (merge_tran_idempotent 1 (Some "0") (Some "title") "en" (Some "Hello")
           tran "fr" sample_store _ _ H1 H2 H3 H4).
Defined.

(** The boundary of the idempotence: a translation into the column of the
    base language itself.  The insert names the same column twice and keeps
    the first value, the base content; the second merge writes the
    translation over it. *)
Example merge_into_base_language :
  let merge := merge_tran 1 (Some "0") (Some "title") "en" (Some "Hello") (tr "en" "Hi") in
  get_text "en" <$> record_at 1 "0" (data (run merge sample_store))
  = Some (Some "Hello")
  ∧ get_text "en" <$> record_at 1 "0" (data (run merge (run merge sample_store)))
    = Some (Some "Hi").
Proof. vm_compute. done. Qed.

(** ** The merge of a text item, twice *)

Lemma update_trans_fmap f p l rows :
  update_trans f p l rows
  = (λ r, if decide (at_slot f p r) then write_trans l r else r) <$> rows.
Proof.
  unfold update_trans, write_trans. revert rows.
  induction l as [|tran l IH]; intros rows; simpl.
  - rewrite <- (list_fmap_id rows) at 1. apply list_fmap_ext.
    intros i r _. by case_decide.
  - rewrite IH. unfold update_rows. rewrite <- list_fmap_compose.
    apply list_fmap_ext. intros i r _. simpl.
    destruct (decide (at_slot f p r)) as [Hr|Hr].
    + by rewrite (decide_True (P := at_slot f p (set_text _ _ r))) by done.
    + by rewrite (decide_False (P := at_slot f p r)) by done.
Qed.

Lemma write_trans_slot l r :
  file_id (write_trans l r) = file_id r
  ∧ position (write_trans l r) = position r
  ∧ description (write_trans l r) = description r.
Proof.
  unfold write_trans. revert r. induction l as [|tran l IH]; intros r; [done|].
  simpl. by destruct (IH (set_text (tran_column tran) (text tran) r)) as (-> & -> & ->).
Qed.

Lemma texts_write_trans l r k :
  texts (write_trans l r) !! k = assigned k l (texts r !! k).
Proof.
  unfold write_trans, assigned. revert r.
  induction l as [|tran l IH]; intros r; [done|].
  simpl. by rewrite IH, texts_set_text.
Qed.

Lemma assigned_constant_or_same k l :
  (∀ x y, assigned k l x = assigned k l y) ∨ (∀ x, assigned k l x = x).
Proof.
  unfold assigned. induction l as [|tran l IH]; [by right|].
  simpl. destruct (decide (k = column_key (tran_column tran))) as [Hk|Hk].
  - by left.
  - exact IH.
Qed.

Lemma write_trans_twice l r : write_trans l (write_trans l r) = write_trans l r.
Proof.
  destruct (write_trans_slot l r) as (H1 & H2 & H3).
  destruct (write_trans_slot l (write_trans l r)) as (H4 & H5 & H6).
  apply row_eq; try congruence.
  intros k. rewrite !texts_write_trans.
  destruct (assigned_constant_or_same k l) as [Hc|Hs]; [apply Hc|by rewrite !Hs].
Qed.

Lemma write_trans_new_row f p desc b bv tran l :
  column_key (tran_column tran) ≠ column_key b →
  write_trans (tran :: l)
    (write_trans l (new_row f p desc b bv (tran_column tran) (text tran)))
  = write_trans l (new_row f p desc b bv (tran_column tran) (text tran)).
Proof.
  intros Hne. set (r := new_row _ _ _ _ _ _ _).
  destruct (write_trans_slot l r) as (H1 & H2 & H3).
  destruct (write_trans_slot (tran :: l) (write_trans l r)) as (H4 & H5 & H6).
  apply row_eq; try congruence.
  intros k. rewrite !texts_write_trans.
  change (assigned k (tran :: l) ?x)
    with (assigned k l (if decide (k = column_key (tran_column tran))
                        then text tran else x)).
  destruct (assigned_constant_or_same k l) as [Hc|Hs]; [apply Hc|].
  rewrite !Hs. case_decide as Hk; [|done].
  subst k. unfold r, new_row. rewrite !texts_set_text.
  rewrite decide_False by done. by rewrite decide_True.
Qed.

Lemma tran_column_loc tran l : loc tran = Some l → tran_column tran = format_language l.
Proof. unfold tran_column. by intros ->. Qed.

Lemma with_data_begin_again c d1 d2 :
  with_data (begin (with_data (begin c) d1)) d2 = with_data (begin c) d2.
Proof. unfold with_data, begin. simpl. by destruct (saved c). Qed.

Lemma accepted_with_Localizations d rows f p tran :
  accepted (with_Localizations d rows) f p tran ↔ accepted d f p tran.
Proof. unfold accepted. by rewrite prepare_with_Localizations. Qed.

Lemma merge_tran_no_loc f p desc bl bv tran c :
  loc tran = None →
  merge_tran f p desc bl bv tran c = (Raise AttributeError, c, []).
Proof.
  intros Hl. unfold merge_tran, language_of, mbind, M_bind, bind, raise.
  by rewrite Hl.
Qed.

Section Merges.
Variables (f : Z) (p desc : option string) (bl : string) (bv : option string).

Let merge := merge_tran f p desc bl bv.
Let update (tran : Translation) : statement :=
  UpdateLocalization (tran_column tran) (text tran) f p.

(** The merges of a list of translations that found a record at the slot
    and returned: every update was accepted. *)
Lemma merge_all_hit l : ∀ c c' t,
  filter (at_slot f p) (Localizations (data c)) ≠ [] →
  for_each l merge c = (Return tt, c', t) →
  l ≠ [] →
  failure c = None ∧ Forall (accepted (data c) f p) l
  ∧ c' = with_data (begin c)
           (with_Localizations (data c)
              (update_trans f p l (Localizations (data c)))).
Proof.
  induction l as [|tran l IH]; [done|]. intros c c' t Hhit Hrun _.
  simpl in Hrun.
  apply bind_inv in Hrun as [([] & c1 & t1 & t2 & H1 & H2 & ->)|(e & _ & ?)];
    [|done].
  destruct (loc tran) as [l0|] eqn:Hl.
  2: { unfold merge in H1. by rewrite merge_tran_no_loc in H1. }
  pose proof (merge_tran_inv _ _ _ _ _ _ _ _ _ _ _ Hl H1) as Hinv.
  cbv zeta in Hinv. rewrite <- (tran_column_loc _ _ Hl) in Hinv.
  destruct Hinv as [(e & He & _)|[(_ & Hf & Hp & Hnn & _ & -> & _)
     |[(Hmiss & _)|(Hmiss & _)]]]; try done.
  assert (Hacc : accepted (data c) f p tran).
  { split; [by rewrite Hl|by split]. }
  destruct l as [|tran' l].
  - unfold for_each, ret in H2. simplify_eq. split; [done|]. split; [|done].
    by constructor.
  - assert (Hhit' : filter (at_slot f p)
                      (Localizations (data (with_data (begin c)
                         (with_Localizations (data c)
                            (update_rows (tran_column tran) (text tran) f p
                               (Localizations (data c))))))) ≠ []).
    { cbn [data with_data Localizations with_Localizations].
      rewrite filter_update_rows. by destruct (filter _ _). }
    assert (Hne : tran' :: l ≠ []) by done.
    destruct (IH _ _ _ Hhit' H2 Hne) as (_ & Hall & ->).
    split; [done|]. split.
    + constructor; [done|].
      eapply Forall_impl; [exact Hall|]. intros x Hx.
      exact (proj1 (accepted_with_Localizations _ _ _ _ _) Hx).
    + by rewrite with_data_begin_again.
Qed.

(** The merges of a list of accepted translations on a store with one
    record at the slot: updates only, one row each. *)
Lemma merge_all_replay l : ∀ c,
  l ≠ [] → failure c = None → Forall (accepted (data c) f p) l →
  length (filter (at_slot f p) (Localizations (data c))) = 1%nat →
  for_each l merge c
  = (Return tt,
     with_data (begin c)
       (with_Localizations (data c) (update_trans f p l (Localizations (data c)))),
     (λ tran, Executed (update tran) 1) <$> l).
Proof.
  induction l as [|tran l IH]; [done|]. intros c _ Hf Hall Hone.
  apply Forall_cons in Hall as [([l0 Hl] & Hp & Hnn) Hall].
  assert (Hhit : filter (at_slot f p) (Localizations (data c)) ≠ []).
  { by destruct (filter _ _). }
  rewrite (tran_column_loc _ _ Hl) in Hp, Hnn.
  pose proof (merge_tran_update f p desc bl bv tran l0 c Hl Hf Hp Hhit Hnn) as H1.
  rewrite Hone in H1. rewrite <- (tran_column_loc _ _ Hl) in H1.
  simpl. unfold bind. fold merge in H1. rewrite H1.
  destruct l as [|tran' l]; [done|].
  set (c1 := with_data (begin c) _).
  assert (Hne : tran' :: l ≠ []) by done.
  assert (Hf1 : failure c1 = None) by done.
  assert (Hall1 : Forall (accepted (data c1) f p) (tran' :: l)).
  { eapply Forall_impl; [exact Hall|]. intros x Hx.
    exact (proj2 (accepted_with_Localizations _ _ _ _ _) Hx). }
  assert (Hone1 : length (filter (at_slot f p) (Localizations (data c1))) = 1%nat).
  { unfold c1. cbn [data with_data Localizations with_Localizations].
    by rewrite filter_update_rows, length_fmap. }
  rewrite (IH c1 Hne Hf1 Hall1 Hone1). unfold c1.
  by rewrite with_data_begin_again.
Qed.
End Merges.

Lemma filter_update_trans f p l rows :
  filter (at_slot f p) (update_trans f p l rows)
  = write_trans l <$> filter (at_slot f p) rows.
Proof.
  unfold update_trans, write_trans. revert rows.
  induction l as [|tran l IH]; intros rows; simpl.
  - by rewrite list_fmap_id.
  - rewrite IH, filter_update_rows, <- list_fmap_compose. done.
Qed.

Lemma at_slot_write_trans f p l r : at_slot f p (write_trans l r) ↔ at_slot f p r.
Proof.
  destruct (write_trans_slot l r) as (H1 & H2 & _).
  unfold at_slot. by rewrite H1, H2.
Qed.

Lemma update_trans_twice f p l rows :
  update_trans f p l (update_trans f p l rows) = update_trans f p l rows.
Proof.
  rewrite !update_trans_fmap, <- list_fmap_compose.
  apply list_fmap_ext. intros i r _. simpl.
  destruct (decide (at_slot f p r)) as [Hr|Hr].
  - rewrite (decide_True (P := at_slot f p (write_trans l r)))
      by (by apply at_slot_write_trans).
    apply write_trans_twice.
  - by rewrite (decide_False (P := at_slot f p r)) by done.
Qed.

Lemma update_trans_miss f p l rows :
  filter (at_slot f p) rows = [] → update_trans f p l rows = rows.
Proof.
  intros Hmiss. unfold update_trans. induction l as [|tran l IH]; [done|].
  simpl. by rewrite update_rows_miss.
Qed.

Lemma update_trans_app f p l rows1 rows2 :
  update_trans f p l (rows1 ++ rows2)
  = update_trans f p l rows1 ++ update_trans f p l rows2.
Proof. by rewrite !update_trans_fmap, fmap_app. Qed.

Lemma update_trans_one f p l r :
  at_slot f p r → update_trans f p l [r] = [write_trans l r].
Proof. intros Hr. rewrite update_trans_fmap. simpl. by rewrite decide_True. Qed.

Lemma merge_all_settled f p desc bl bv l c c' t :
  l ≠ [] → unique_slots (data c) →
  (∀ tran, tran ∈ l → column_key (tran_column tran) ≠ column_key bl) →
  for_each l (merge_tran f p desc bl bv) c = (Return tt, c', t) →
  ∃ rows,
    c' = with_data (begin c) (with_Localizations (data c) rows)
    ∧ failure c = None ∧ Forall (accepted (data c) f p) l
    ∧ settled f p l rows.
Proof.
  intros Hne Hu Hbl Hrun.
  destruct (decide (filter (at_slot f p) (Localizations (data c)) = [])) as [Hmiss|Hhit].
  - destruct l as [|tran l]; [done|]. simpl in Hrun.
    apply bind_inv in Hrun as [([] & c1 & t1 & t2 & H1 & H2 & ->)|(e & _ & ?)];
      [|done].
    destruct (loc tran) as [l0|] eqn:Hl.
    2: { by rewrite merge_tran_no_loc in H1. }
    pose proof (merge_tran_inv _ _ _ _ _ _ _ _ _ _ _ Hl H1) as Hinv.
    cbv zeta in Hinv. rewrite <- (tran_column_loc _ _ Hl) in Hinv.
    destruct Hinv as [(e & He & _)|[(Hhit & _)|[(_ & _ & _ & e & He & _)
       |(_ & Hf & Hp & _ & d & cur & Hs & _ & -> & _)]]]; try done.
    apply step_insert_inv in Hs as (p' & -> & Hen & Hslot & _ & ->).
    set (nr := new_row f p' desc bl bv (tran_column tran) (text tran)) in *.
    assert (Hnr : at_slot f (Some p') nr) by done.
    assert (Hacc : accepted (data c) f (Some p') tran).
    { split; [by rewrite Hl|]. split; [done|].
      intros [Hk Hv]. apply Hen. unfold get_text, nr, new_row.
      rewrite Hv, !texts_set_text.
      change (column_key default_language) with default_language.
      rewrite decide_False.
      - by rewrite decide_True.
      - rewrite <- Hk. apply Hbl. by left. }
    exists (Localizations (data c) ++ [write_trans l nr]).
    assert (Hset : settled f (Some p') (tran :: l)
                     (Localizations (data c) ++ [write_trans l nr])).
    { split.
      - rewrite filter_app, Hmiss, filter_cons, decide_True; [done|].
        by apply at_slot_write_trans.
      - rewrite update_trans_app, (update_trans_miss _ _ _ _ Hmiss).
        rewrite update_trans_one by (by apply at_slot_write_trans).
        unfold nr. rewrite write_trans_new_row; [done|]. apply Hbl. by left. }
    destruct l as [|tran' l].
    + unfold for_each, ret in H2. simplify_eq.
      split; [done|]. split; [done|]. split; [by constructor|done].
    + assert (Hhit' : filter (at_slot f (Some p'))
                        (Localizations (data (with_data (begin c)
                           (with_Localizations (data c)
                              (Localizations (data c) ++ [nr]))))) ≠ []).
      { cbn [data with_data Localizations with_Localizations].
        by rewrite filter_app, Hmiss, filter_cons, decide_True. }
      assert (Hne' : tran' :: l ≠ []) by done.
      destruct (merge_all_hit _ _ _ _ _ _ _ _ _ Hhit' H2 Hne') as (_ & Hall & ->).
      cbn [data with_data Localizations with_Localizations].
      rewrite with_data_begin_again.
      rewrite update_trans_app, (update_trans_miss _ _ _ _ Hmiss).
      rewrite update_trans_one by done.
      split; [done|]. split; [done|]. split; [|done].
      constructor; [done|].
      eapply Forall_impl; [exact Hall|]. intros x Hx.
      exact (proj1 (accepted_with_Localizations _ _ _ _ _) Hx).
  - destruct (merge_all_hit _ _ _ _ _ _ _ _ _ Hhit Hrun Hne) as (Hf & Hall & ->).
    eexists. split; [done|]. split; [done|]. split; [done|]. split.
    + rewrite filter_update_trans, length_fmap.
      pose proof (at_most_one_record (data c) f p Hu) as Hle.
      destruct (filter (at_slot f p) (Localizations (data c))) as [|r [|r' rs]];
        simpl in *; [done|done|lia].
    + apply update_trans_twice.
Qed.

Lemma commit_idle c : idle c → commit c = c.
Proof. destruct c as [d s e]. unfold idle. simpl. by intros ->. Qed.

(** C1, as the code has it.  Idempotence of the merge, away from the column
    of the base language: when [add_text_item] has returned for a text item
    whose locale codes name language columns, on a store entered without an
    open transaction that respects the uniqueness of slots, and no
    translation of the item is in the column of its base language, merging
    the same text item again runs one update per translation, each reporting
    one affected row, and no insert, and leaves the connection, hence the
    stored row, as the first merge left it.  That the first merge returned
    entails that the columns it named exist.  For an item with one
    translation this is the merge of one (file_id, position, language, text,
    description) tuple. *)
Theorem add_text_item_idempotent ti f c c1 t1 :
  idle c → unique_slots (data c) →
  language_name (tran_column (base ti)) = true →
  (∀ tran, tran ∈ trans ti →
           language_name (tran_column tran) = true
           ∧ column_key (tran_column tran) ≠ column_key (tran_column (base ti))) →
  add_text_item ti f c = (Return tt, c1, t1) →
  add_text_item ti f c1
  = (Return tt, c1,
     ((λ tran, Executed (UpdateLocalization (tran_column tran) (text tran)
                           f (Position ti)) 1) <$> trans ti) ++ [Committed]).
Proof.
  intros Hi Hu _ Hcodes Hrun.
  assert (Hbl : ∀ tran, tran ∈ trans ti →
            column_key (tran_column tran) ≠ column_key (tran_column (base ti))).
  { intros tran Hin. exact (proj2 (Hcodes tran Hin)). }
  clear Hcodes. unfold add_text_item in Hrun |- *.
  destruct (loc (base ti)) as [b0|] eqn:Hb.
  2: { unfold language_of, mbind, M_bind, bind, raise in Hrun.
       by rewrite Hb in Hrun. }
  rewrite (tran_column_loc _ _ Hb) in Hbl.
  unfold language_of, mbind, M_bind in Hrun |- *. rewrite Hb in Hrun |- *.
  rewrite bind_ret in Hrun |- *.
  apply with_db_inv in Hrun
    as [([] & c' & t & Hrun & _ & -> & ->)|(e & c' & t & _ & ? & _)]; [|done].
  destruct (trans ti) as [|tran l] eqn:Ht.
  - unfold for_each, ret in Hrun. simplify_eq.
    unfold with_db, for_each, ret. simpl. by rewrite !commit_idle.
  - assert (Hne : tran :: l ≠ []) by done.
    destruct (merge_all_settled _ _ _ _ _ _ _ _ _ Hne Hu Hbl Hrun)
      as (rows & -> & Hf & Hall & Hone & Hsame).
    set (c1 := commit _).
    assert (Hf1 : failure c1 = None) by done.
    assert (Hall1 : Forall (accepted (data c1) f (Position ti)) (tran :: l)).
    { eapply Forall_impl; [exact Hall|]. intros x Hx.
      exact (proj2 (accepted_with_Localizations _ _ _ _ _) Hx). }
    assert (Hone1 : length (filter (at_slot f (Position ti))
                              (Localizations (data c1))) = 1%nat) by done.
    unfold with_db.
    rewrite (merge_all_replay _ _ _ _ _ _ c1 Hne Hf1 Hall1 Hone1).
    f_equal. f_equal. unfold c1.
    cbn [data commit with_data Localizations with_Localizations].
    rewrite Hsame. unfold commit. simpl. done.
Qed.

Lemma add_text_item_idempotent_witness :
  let ti := item "0" "title" (tr "en" "Hello") [tr "fr" "Bonjour"] in
  idle sample_store ∧ unique_slots (data sample_store)
  ∧ language_name (tran_column (base ti)) = true
  ∧ (∀ tran, tran ∈ trans ti →
             language_name (tran_column tran) = true
             ∧ column_key (tran_column tran) ≠ column_key (tran_column (base ti)))
  ∧ add_text_item ti 1 sample_store
    = (Return tt, run (add_text_item ti 1) sample_store,
       log (add_text_item ti 1) sample_store)
  ∧ add_text_item ti 1 (run (add_text_item ti 1) sample_store)
    = (Return tt, run (add_text_item ti 1) sample_store,
       [Executed (UpdateLocalization "fr" (Some "Bonjour") 1 (Some "0")) 1;
        Committed]).
Proof.
  intros ti.
  assert (H1 : idle sample_store) by reflexivity.
  assert (H2 : unique_slots (data sample_store)) by (vm_compute; constructor).
  assert (Hb : language_name (tran_column (base ti)) = true) by reflexivity.
  assert (H3 : ∀ tran, tran ∈ trans ti →
                 language_name (tran_column tran) = true
                 ∧ column_key (tran_column tran) ≠ column_key (tran_column (base ti))).
  { intros tran Hin. apply list_elem_of_singleton in Hin. subst tran.
    split; [reflexivity|]. vm_compute. discriminate. }
  assert (H4 : add_text_item ti 1 sample_store
               = (Return tt, run (add_text_item ti 1) sample_store,
                  log (add_text_item ti 1) sample_store))
    by (vm_compute; reflexivity).
  repeat (split; [assumption|]).
  exact (add_text_item_idempotent ti 1 sample_store _ _ H1 H2 Hb H3 H4).
Defined.

(** C1, as the claim has it, fails for a translation into the column of the
    base language.  The columns exist and the first merge returns: its
    insert names the column [en] twice and keeps the first value, the base
    content.  The second merge of the same item runs the update alone, which
    reports one row, and writes the translation over the base content: the
    stored row is not the row that the first merge left. *)
Lemma same_item_twice_changes_record :
  let ti := item "0" "title" (tr "en" "Hello") [tr "en" "Hi"] in
  let c1 := run (add_text_item ti 1) sample_store in
  let c2 := run (add_text_item ti 1) c1 in
  has_column (data sample_store) "en" = true
  ∧ result (add_text_item ti 1) sample_store = Return tt
  ∧ result (add_text_item ti 1) c1 = Return tt
  ∧ log (add_text_item ti 1) c1
    = [Executed (UpdateLocalization "en" (Some "Hi") 1 (Some "0")) 1; Committed]
  ∧ get_text "en" <$> record_at 1 "0" (data c1) = Some (Some "Hello")
  ∧ get_text "en" <$> record_at 1 "0" (data c2) = Some (Some "Hi")
  ∧ record_at 1 "0" (data c2) ≠ record_at 1 "0" (data c1).
Proof.
  intros ti c1 c2.
  assert (H1 : get_text "en" <$> record_at 1 "0" (data c1) = Some (Some "Hello"))
    by (vm_compute; reflexivity).
  assert (H2 : get_text "en" <$> record_at 1 "0" (data c2) = Some (Some "Hi"))
    by (vm_compute; reflexivity).
  split_and!; try (vm_compute; reflexivity); try assumption.
  intros Heq. rewrite Heq, H1 in H2. clear -H2. by simplify_eq.
Qed.

(** ** What a merge leaves alone *)

Lemma record_at_updated c v f p d :
  record_at f p (with_Localizations d (update_rows c v f (Some p) (Localizations d)))
  = set_text c v <$> record_at f p d.
Proof.
  unfold record_at. simpl. rewrite filter_update_rows.
  by destruct (filter _ _).
Qed.

Lemma merge_tran_at_record f p desc bl bv tran l c o c' t r :
  loc tran = Some l →
  record_at f p (data c) = Some r →
  merge_tran f (Some p) desc bl bv tran c = (o, c', t) →
  statement_of <$> t
    = [Some (UpdateLocalization (format_language l) (text tran) f (Some p))]
  ∧ (data c' = data c
     ∨ data c' = with_Localizations (data c)
                   (update_rows (format_language l) (text tran) f (Some p)
                      (Localizations (data c)))).
Proof.
  intros Hl Hr Hrun.
  assert (Hhit : filter (at_slot f (Some p)) (Localizations (data c)) ≠ []).
  { unfold record_at in Hr. by destruct (filter _ _). }
  apply (merge_tran_inv _ _ _ _ _ _ _ _ _ _ _ Hl) in Hrun
    as [(e & _ & Hd & ->)|[(_ & _ & _ & _ & _ & -> & ->)
       |[(? & _)|(? & _)]]]; try done.
  - split; [done|by left].
  - split; [done|by right].
Qed.

(** C2.  Frame of the merge: when a record exists at (file_id, position),
    the merge of a translation whose locale code names a language column,
    whether it returns or raises, runs the update and nothing else, adds no
    record, and leaves in the record every language column other than the
    column of the target language as it was; in particular the column of the
    base language, whenever the target language is another one. *)
Theorem merge_tran_frame f p desc bl bv tran l c o c' t r :
  loc tran = Some l →
  language_name (format_language l) = true →
  record_at f p (data c) = Some r →
  merge_tran f (Some p) desc bl bv tran c = (o, c', t) →
  ∃ r', record_at f p (data c') = Some r'
    ∧ (∀ k, k ≠ column_key (format_language l) → texts r' !! k = texts r !! k)
    ∧ (column_key bl ≠ column_key (format_language l) →
       get_text bl r' = get_text bl r)
    ∧ length (Localizations (data c')) = length (Localizations (data c))
    ∧ statement_of <$> t
      = [Some (UpdateLocalization (format_language l) (text tran) f (Some p))].
Proof.
  intros Hl _ Hr Hrun.
  destruct (merge_tran_at_record _ _ _ _ _ _ _ _ _ _ _ _ Hl Hr Hrun) as [Ht [Hd|Hd]];
    rewrite Hd.
  - exists r. by split_and!.
  - exists (set_text (format_language l) (text tran) r).
    rewrite record_at_updated, Hr. split_and!; try done.
    + intros k Hk. rewrite texts_set_text. by rewrite decide_False.
    + intros Hk. unfold get_text. rewrite texts_set_text. by rewrite decide_False.
    + simpl. unfold update_rows. by rewrite length_fmap.
Qed.

(** C4, as the code has it.  The update of a merge into a language column
    does not write the description: for a translation whose locale code
    names a language column, when a record exists at (file_id, position),
    the merge leaves its description as stored, whatever description is
    supplied; the description is the one supplied by the merge that inserted
    the record. *)
Theorem merge_tran_description f p desc bl bv tran c o c' t :
  (∀ l, loc tran = Some l → language_name (format_language l) = true) →
  (∀ r, record_at f p (data c) = Some r →
        merge_tran f (Some p) desc bl bv tran c = (o, c', t) →
        description <$> record_at f p (data c') = Some (description r))
  ∧ (record_at f p (data c) = None →
     merge_tran f (Some p) desc bl bv tran c = (Return tt, c', t) →
     description <$> record_at f p (data c') = Some desc).
Proof.
  intros _. split.
  - intros r Hr Hrun. destruct (loc tran) as [l|] eqn:Hl.
    + destruct (merge_tran_at_record _ _ _ _ _ _ _ _ _ _ _ _ Hl Hr Hrun)
        as [_ [Hd|Hd]]; rewrite Hd.
      * by rewrite Hr.
      * by rewrite record_at_updated, Hr.
    + unfold merge_tran, language_of, mbind, M_bind, bind, raise in Hrun.
      rewrite Hl in Hrun. simplify_eq. by rewrite Hr.
  - intros Hr Hrun. destruct (loc tran) as [l|] eqn:Hl.
    + assert (Hhit : filter (at_slot f (Some p)) (Localizations (data c)) = []).
      { unfold record_at in Hr. by destruct (filter _ _). }
      pose proof (merge_tran_inv _ _ _ _ _ _ _ _ _ _ _ Hl Hrun) as Hinv.
      cbv zeta in Hinv.
      destruct Hinv
        as [(e & He & _)|[(Hne & _)|[(_ & _ & _ & e & He & _)
           |(_ & _ & _ & _ & d & cur & Hs & _ & -> & _)]]]; try done.
      apply step_insert_inv in Hs as (p' & ? & _ & _ & _ & ->). simplify_eq.
      unfold record_at. simpl. rewrite filter_app, Hhit, filter_cons.
      by rewrite decide_True.
    + unfold merge_tran, language_of, mbind, M_bind, bind, raise in Hrun.
      by rewrite Hl in Hrun.
Qed.

Lemma merge_tran_frame_witness :
  let c := run (add_text_item (item "0" "title" (tr "en" "Hello") [tr "fr" "Bonjour"]) 1)
             sample_store in
  let r := new_row 1 "0" (Some "title") "en" (Some "Hello") "fr" (Some "Bonjour") in
  let merge := merge_tran 1 (Some "0") (Some "title") "en" (Some "Hello") (tr "de" "Hallo") in
  loc (tr "de" "Hallo") = Some "de"
  ∧ language_name (format_language "de") = true
  ∧ record_at 1 "0" (data c) = Some r
  ∧ merge c = (result merge c, run merge c, log merge c)
  ∧ ∃ r', record_at 1 "0" (data (run merge c)) = Some r'
      ∧ (∀ k, k ≠ column_key (format_language "de") → texts r' !! k = texts r !! k)
      ∧ (column_key "en" ≠ column_key (format_language "de") →
         get_text "en" r' = get_text "en" r)
      ∧ length (Localizations (data (run merge c))) = length (Localizations (data c))
      ∧ statement_of <$> log merge c
        = [Some (UpdateLocalization (format_language "de") (text (tr "de" "Hallo"))
                   1 (Some "0"))].
Proof.
  intros c r merge.
  assert (H1 : loc (tr "de" "Hallo") = Some "de") by reflexivity.
  assert (Hn : language_name (format_language "de") = true) by reflexivity.
  assert (H2 : record_at 1 "0" (data c) = Some r) by (vm_compute; reflexivity).
  assert (H3 : merge c = (result merge c, run merge c, log merge c))
    by (unfold result, run, log; by destruct (merge c) as [[? ?] ?]).
  repeat (split; [assumption|]).
  exact (merge_tran_frame 1 "0" (Some "title") "en" (Some "Hello") (tr "de" "Hallo")
           "de" c _ _ _ r H1 Hn H2 H3).
Defined.

(** The scenario of the two merges: one record with the three texts. *)
Example Hello_in_three_languages :
  let c := run (add_text_item (item "0" "title" (tr "en" "Hello") [tr "fr" "Bonjour"]) 1;;
                add_text_item (item "0" "title" (tr "en" "Hello") [tr "de" "Hallo"]) 1)
             sample_store in
  length (Localizations (data c)) = 1%nat
  ∧ (get_text "en" <$> record_at 1 "0" (data c)) = Some (Some "Hello")
  ∧ (get_text "fr" <$> record_at 1 "0" (data c)) = Some (Some "Bonjour")
  ∧ (get_text "de" <$> record_at 1 "0" (data c)) = Some (Some "Hallo").
Proof. vm_compute. done. Qed.

Lemma merge_tran_description_witness :
  let c := run (add_text_item (item "0" "title" (tr "en" "Hello") [tr "fr" "Bonjour"]) 1)
             sample_store in
  let r := new_row 1 "0" (Some "title") "en" (Some "Hello") "fr" (Some "Bonjour") in
  let merge := merge_tran 1 (Some "0") (Some "heading") "en" (Some "Hello") (tr "de" "Hallo") in
  (∀ l, loc (tr "de" "Hallo") = Some l → language_name (format_language l) = true)
  ∧ record_at 1 "0" (data c) = Some r
  ∧ merge c = (result merge c, run merge c, log merge c)
  ∧ description <$> record_at 1 "0" (data (run merge c)) = Some (description r).
Proof.
  intros c r merge.
  assert (H1 : ∀ l, loc (tr "de" "Hallo") = Some l →
                 language_name (format_language l) = true).
  { intros l [= <-]. reflexivity. }
  assert (H2 : record_at 1 "0" (data c) = Some r) by (vm_compute; reflexivity).
  assert (H3 : merge c = (result merge c, run merge c, log merge c))
    by (unfold result, run, log; by destruct (merge c) as [[? ?] ?]).
  repeat (split; [assumption|]).
  exact (proj1 (merge_tran_description 1 "0" (Some "heading") "en" (Some "Hello")
                  (tr "de" "Hallo") c _ _ _ H1) r H2 H3).
Defined.

(** C4, as the claim has it, fails: a merge that supplies the description
    "heading" and finds the record inserted with the description "title"
    (its update reports one row) leaves "title" in the store. *)
Lemma description_not_overwritten :
  let c := run (add_text_item (item "0" "title" (tr "en" "Hello") [tr "fr" "Bonjour"]) 1)
             sample_store in
  let later := add_text_item (item "0" "heading" (tr "en" "Hello") [tr "de" "Hallo"]) 1 in
  result later c = Return tt
  ∧ log later c
    = [Executed (UpdateLocalization "de" (Some "Hallo") 1 (Some "0")) 1; Committed]
  ∧ description <$> record_at 1 "0" (data (run later c)) = Some (Some "title")
  ∧ description <$> record_at 1 "0" (data (run later c)) ≠ Some (Some "heading").
Proof. vm_compute. split_and!; done. Qed.

(** ** The registration of files *)

Lemma with_data_same c : with_data c (data c) = c.
Proof. by destruct c. Qed.

Lemma execute_select_inv p c cur c' t :
  execute (SelectFileId p) c = (Return cur, c', t) →
  failure c = None ∧ created (data c) = true ∧ c' = c
  ∧ t = [Executed (SelectFileId p) (-1)]
  ∧ rows cur = match p with
               | Some p => id <$> filter (λ r, path r = p) (Files (data c))
               | None => []
               end.
Proof.
  intros Hrun. apply execute_inv in Hrun
    as [(e' & _ & ? & _)|[(e' & _ & _ & ? & _)
       |[(e' & _ & _ & _ & ? & _)|(d & cur' & Hf & Hp & Hs & ? & -> & ->)]]];
    simplify_eq.
  simpl in Hp, Hs. simplify_eq. simpl.
  destruct (created (data c)); [|done].
  by rewrite with_data_same.
Qed.

Lemma execute_select p c :
  failure c = None → created (data c) = true →
  execute (SelectFileId p) c
  = (Return {| rows := match p with
                       | Some p => id <$> filter (λ r, path r = p) (Files (data c))
                       | None => []
                       end;
               rowcount := -1; lastrowid := 0 |},
     c, [Executed (SelectFileId p) (-1)]).
Proof.
  intros Hf Hc. unfold execute. rewrite Hf. simpl. rewrite Hc. simpl.
  by rewrite with_data_same.
Qed.

(** C6.  File identity stability: when [add_file] has returned an
    identifier for a path, a second call with the same path and any project
    returns the same identifier, runs the SELECT only and leaves the
    connection as it is, so that no row is added and the stored project is
    not touched; and when the path was not registered before the first
    call, the stored project is the project of that first call. *)
Theorem add_file_stable project project' path c i c1 t1 :
  add_file project path c = (Return i, c1, t1) →
  add_file project' path c1
  = (Return i, c1, [Executed (SelectFileId path) (-1)])
  ∧ (∀ p, path = Some p → project_of p (data c) = None →
          project_of p (data c1) = project).
Proof.
  intros Hrun. unfold add_file in Hrun.
  apply bind_inv in Hrun as [(cur & c0 & t0 & t2 & H0 & Hrun & ->)|(e & _ & ?)];
    [|done].
  apply execute_select_inv in H0 as (Hf & Hc & -> & -> & Hrows).
  destruct (rows cur) as [|i0 ids] eqn:Hcur.
  - apply with_db_inv in Hrun
      as [(a & c2 & t3 & H3 & ? & -> & ->)|(e & c2 & t3 & _ & ? & _)]; [|done].
    simplify_eq.
    apply bind_inv in H3 as [(cur2 & c3 & t4 & t5 & H4 & H5 & ->)|(e & _ & ?)];
      [|done].
    unfold ret in H5. simplify_eq.
    apply execute_inv in H4
      as [(e' & _ & ? & _)|[(e' & _ & _ & ? & _)
         |[(e' & _ & _ & _ & ? & _)|(d & cur' & _ & _ & Hs & ? & -> & ->)]]];
      simplify_eq.
    simpl in Hs. destruct project as [pj|]; [|done]. destruct path as [p|]; [|done].
    case_bool_decide as Hin; [done|]. simplify_eq. simpl in Hrows.
    assert (Hnone : filter (λ r, path r = p) (Files (data c)) = []).
    { by destruct (filter _ _). }
    split.
    + unfold add_file, mbind, M_bind, bind.
      rewrite execute_select by done. simpl.
      rewrite filter_app, Hnone, filter_cons, decide_True by done. simpl.
      done.
    + intros p0 [= <-] _. unfold project_of. simpl.
      rewrite filter_app, Hnone, filter_cons, decide_True by done. done.
  - unfold ret in Hrun. simplify_eq. split.
    + unfold add_file, mbind, M_bind, bind.
      rewrite execute_select by done. simpl. rewrite <- Hrows. done.
    + intros p -> Hnone. exfalso. unfold project_of in Hnone.
      destruct (filter _ _); [done|]. done.
Qed.

Lemma add_file_stable_witness :
  let first := add_file (Some "App") (Some "A/B.strings") in
  let c1 := run first new_store in
  first new_store = (Return 1%Z, c1, log first new_store)
  ∧ add_file (Some "Other") (Some "A/B.strings") c1
    = (Return 1%Z, c1, [Executed (SelectFileId (Some "A/B.strings")) (-1)])
  ∧ (∀ p, Some "A/B.strings" = Some p → project_of p (data new_store) = None →
          project_of p (data c1) = Some "App").
Proof.
  intros first c1.
  assert (H1 : first new_store = (Return 1%Z, c1, log first new_store))
    by (vm_compute; reflexivity).
  split; [assumption|].
  exact (add_file_stable (Some "App") (Some "Other") (Some "A/B.strings")
           new_store 1 c1 _ H1).
Defined.

(** The scenario of the two registrations: the project remains "App". *)
Example registered_twice :
  let c1 := run (add_file (Some "App") (Some "A/B.strings")) new_store in
  let c2 := run (add_file (Some "Other") (Some "A/B.strings")) c1 in
  result (add_file (Some "App") (Some "A/B.strings")) new_store = Return 1%Z
  ∧ result (add_file (Some "Other") (Some "A/B.strings")) c1 = Return 1%Z
  ∧ project_of "A/B.strings" (data c2) = Some "App"
  ∧ length (Files (data c2)) = 1%nat.
Proof. vm_compute. done. Qed.

Lemma execute_step s c d cur :
  failure c = None → prepare (data c) s = None → step (data c) s = inr (d, cur) →
  execute s c = (Return cur, with_data (started s c) d, [Executed s (rowcount cur)]).
Proof.
  intros Hf Hp Hs. unfold execute. rewrite Hf, Hp. fold (started s c).
  by rewrite data_started, Hs.
Qed.

Lemma execute_step_fail s c e :
  failure c = None → prepare (data c) s = None → step (data c) s = inl e →
  execute s c = (Raise e, started s c, [Failed s e]).
Proof.
  intros Hf Hp Hs. unfold execute. rewrite Hf, Hp. fold (started s c).
  by rewrite data_started, Hs.
Qed.

(** ** The failures that [add_language] suppresses *)

(** C7, as the code has it.  [add_language] returns normally whenever the
    ALTER TABLE statement raises an [OperationalError], whatever its cause:
    the duplicate column, and also a statement that does not compile or a
    storage failure of that class; an exception of any other class reaches
    the caller.  When the column exists (on a working store with the
    tables) the call is a no-op that returns normally. *)
Theorem add_language_suppresses_operational language c :
  result (add_language language) c
  = match result (execute (AddColumn language)) c with
    | Return _ => Return tt
    | Raise (OperationalError _) => Return tt
    | Raise e => Raise e
    end
  ∧ (failure c = None → created (data c) = true →
     language_name language = true → has_column (data c) language = true →
     add_language language c
     = (Return tt, commit c,
        [Failed (AddColumn language) (OperationalError duplicate_column_name);
         Committed])).
Proof.
  split.
  - unfold result, add_language, with_db, try_except, mbind, M_bind, bind.
    destruct (execute (AddColumn language) c) as [[[a|e] c1] t1]; [done|].
    simpl. by destruct e.
  - intros Hf Hc Hn Hh.
    unfold add_language, with_db, try_except, mbind, M_bind, bind, execute.
    rewrite Hf. simpl. by rewrite Hn, Hc, Hh.
Qed.

Lemma add_language_suppresses_operational_witness :
  failure sample_store = None ∧ created (data sample_store) = true
  ∧ language_name "fr" = true ∧ has_column (data sample_store) "fr" = true
  ∧ add_language "fr" sample_store
    = (Return tt, commit sample_store,
       [Failed (AddColumn "fr") (OperationalError duplicate_column_name); Committed]).
Proof.
  assert (H1 : failure sample_store = None) by reflexivity.
  assert (H2 : created (data sample_store) = true) by reflexivity.
  assert (H3 : language_name "fr" = true) by reflexivity.
  assert (H4 : has_column (data sample_store) "fr" = true) by reflexivity.
  repeat (split; [assumption|]).
  exact (proj2 (add_language_suppresses_operational "fr" sample_store) H1 H2 H3 H4).
Defined.

(** C7, as the claim has it, fails: the Icelandic code [is] is a reserved
    word, the ALTER TABLE statement raises a syntax error, which is not the
    duplicate-column condition, and [add_language] returns normally without
    adding the column; the same happens for a code that was not normalized,
    and for an I/O error of the storage. *)
Lemma add_language_swallows_other_failures :
  result (execute (AddColumn "is")) new_store = Raise (OperationalError syntax_error)
  ∧ add_language "is" new_store
    = (Return tt, new_store,
       [Failed (AddColumn "is") (OperationalError syntax_error); Committed])
  ∧ add_language "zh-Hant" new_store
    = (Return tt, new_store,
       [Failed (AddColumn "zh-Hant") (OperationalError syntax_error); Committed])
  ∧ (let broken := {| data := data new_store; saved := None;
                      failure := Some (OperationalError disk_io_error) |} in
     add_language "fr" broken
     = (Return tt, broken,
        [Failed (AddColumn "fr") (OperationalError disk_io_error); Committed])).
Proof. vm_compute. done. Qed.

(** A failure of another class is not caught: on a damaged database file
    the exception reaches the caller. *)
Example add_language_propagates_others :
  let damaged := {| data := data new_store; saved := None;
                    failure := Some DatabaseError |} in
  add_language "fr" damaged
  = (Raise DatabaseError, damaged, [Failed (AddColumn "fr") DatabaseError; RolledBack]).
Proof. vm_compute. done. Qed.

(** ** The default language *)

(** C9, as the code has it.  On a working store, when no record is at
    (file_id, position), both language columns exist and neither the base
    language nor the target language is [en], the merge runs the update,
    which reports no row, then the insert, which leaves [en] NULL and raises
    [IntegrityError]; the content of the store is unchanged. *)
Theorem merge_tran_without_default_language f p desc bl bv tran l c :
  loc tran = Some l →
  failure c = None → created (data c) = true →
  language_name bl = true → has_column (data c) bl = true →
  language_name (format_language l) = true →
  has_column (data c) (format_language l) = true →
  filter (at_slot f p) (Localizations (data c)) = [] →
  column_key bl ≠ default_language →
  column_key (format_language l) ≠ default_language →
  merge_tran f p desc bl bv tran c
  = (Raise IntegrityError, begin c,
     [Executed (UpdateLocalization (format_language l) (text tran) f p) 0;
      Failed (InsertLocalization f p desc bl bv (format_language l) (text tran))
        IntegrityError]).
Proof.
  intros Hl Hf Hc Hbn Hbc Htn Htc Hhit Hb Ht.
  set (update := UpdateLocalization (format_language l) (text tran) f p).
  set (insert := InsertLocalization f p desc bl bv (format_language l) (text tran)).
  assert (Hu : execute update c
               = (Return {| rows := []; rowcount := 0; lastrowid := 0 |},
                  begin c, [Executed update 0])).
  { rewrite (execute_step update c (data c)
               {| rows := []; rowcount := 0; lastrowid := 0 |}); [|done| |].
    - cbn [rowcount]. do 2 f_equal.
    - simpl. by rewrite Htn, Hc, Htc.
    - simpl. rewrite Hhit, bool_decide_eq_false_2 by (by intros [? _]).
      rewrite (update_rows_miss _ _ _ _ _ Hhit). simpl.
      do 2 f_equal. by destruct (data c). }
  assert (Hi : execute insert (begin c)
               = (Raise IntegrityError, begin c, [Failed insert IntegrityError])).
  { rewrite (execute_step_fail insert (begin c) IntegrityError); [|done| |].
    - do 2 f_equal. unfold started, begin. simpl. by destruct (saved c).
    - simpl. by rewrite Hbn, Htn, Hc, Hbc, Htc.
    - simpl. destruct p as [p|]; [|done].
      rewrite bool_decide_eq_true_2; [done|].
      unfold get_text, new_row. rewrite !texts_set_text.
      change (column_key default_language) with default_language.
      by rewrite !decide_False by congruence. }
  unfold merge_tran, language_of, mbind, M_bind, bind, ret.
  rewrite Hl. fold update. rewrite Hu. cbn [rowcount].
  rewrite decide_True by done. fold insert. by rewrite Hi.
Qed.

Lemma merge_tran_without_default_language_witness :
  let tran := tr "de" "Hallo" in
  loc tran = Some "de"
  ∧ failure sample_store = None ∧ created (data sample_store) = true
  ∧ language_name "fr" = true ∧ has_column (data sample_store) "fr" = true
  ∧ language_name (format_language "de") = true
  ∧ has_column (data sample_store) (format_language "de") = true
  ∧ filter (at_slot 1 (Some "0")) (Localizations (data sample_store)) = []
  ∧ column_key "fr" ≠ default_language
  ∧ column_key (format_language "de") ≠ default_language
  ∧ merge_tran 1 (Some "0") (Some "title") "fr" (Some "Bonjour") tran sample_store
    = (Raise IntegrityError, begin sample_store,
       [Executed (UpdateLocalization (format_language "de") (text tran) 1 (Some "0")) 0;
        Failed (InsertLocalization 1 (Some "0") (Some "title") "fr" (Some "Bonjour")
                  (format_language "de") (text tran))
          IntegrityError]).
Proof.
  intros tran.
  assert (H1 : loc tran = Some "de") by reflexivity.
  assert (H2 : failure sample_store = None) by reflexivity.
  assert (H3 : created (data sample_store) = true) by reflexivity.
  assert (H4 : language_name "fr" = true) by reflexivity.
  assert (H5 : has_column (data sample_store) "fr" = true) by reflexivity.
  assert (H6 : language_name (format_language "de") = true) by reflexivity.
  assert (H7 : has_column (data sample_store) (format_language "de") = true)
    by reflexivity.
  assert (H8 : filter (at_slot 1 (Some "0")) (Localizations (data sample_store)) = [])
    by reflexivity.
  assert (H9 : column_key "fr" ≠ default_language) by (vm_compute; discriminate).
  assert (H10 : column_key (format_language "de") ≠ default_language)
    by (vm_compute; discriminate).
  repeat (split; [assumption|]).
  exact (merge_tran_without_default_language 1 (Some "0") (Some "title") "fr"
           (Some "Bonjour") tran "de" sample_store H1 H2 H3 H4 H5 H6 H7 H8 H9 H10).
Defined.

(** C9, as the claim has it, fails: with the base language [fr] and the
    target language [en], the update finds no record, the insert fills the
    column [en] from the translation, and a record whose base language is
    not [en] is created. *)
Lemma record_with_other_base_language :
  let merge := add_text_item (item "0" "title" (tr "fr" "Bonjour") [tr "en" "Hello"]) 1 in
  record_at 1 "0" (data sample_store) = None
  ∧ result merge sample_store = Return tt
  ∧ log merge sample_store
    = [Executed (UpdateLocalization "en" (Some "Hello") 1 (Some "0")) 0;
       Executed (InsertLocalization 1 (Some "0") (Some "title")
                   "fr" (Some "Bonjour") "en" (Some "Hello")) 1;
       Committed]
  ∧ record_at 1 "0" (data (run merge sample_store))
    = Some (new_row 1 "0" (Some "title") "fr" (Some "Bonjour") "en" (Some "Hello")).
Proof. vm_compute. done. Qed.

(** ** The calls of [add_language] in a conversion *)

Lemma add_language_log language c :
  ∃ ev fin, log (add_language language) c = [ev; fin]
            ∧ statement_of ev = Some (AddColumn language)
            ∧ statement_of fin = None.
Proof.
  unfold log, add_language, with_db, try_except, mbind, M_bind, bind.
  pose proof (execute_inv (AddColumn language) c) as Hinv.
  destruct (execute (AddColumn language) c) as [[[a|e] c1] t1].
  - destruct (Hinv _ _ _ eq_refl)
      as [(e' & _ & ? & _)|[(e' & _ & _ & ? & _)
         |[(e' & _ & _ & _ & ? & _)|(d & cur' & _ & _ & _ & _ & _ & ->)]]];
      simplify_eq.
    simpl. by eexists _, _.
  - destruct (Hinv _ _ _ eq_refl)
      as [(e' & _ & _ & _ & ->)|[(e' & _ & _ & _ & _ & ->)
         |[(e' & _ & _ & _ & _ & _ & ->)|(d & cur' & _ & _ & _ & ? & _)]]];
      simplify_eq; destruct e; simpl; by eexists _, _.
Qed.

Lemma no_schema_event_in_project lg c :
  Forall (λ ev, ¬ schema_event ev) (log (add_localization_project lg) c).
Proof.
  unfold log.
  destruct (add_localization_project lg c) as [[o c'] t] eqn:Hrun.
  apply (respects_add_localization_project (λ _, True) (λ ev, ¬ schema_event ev))
    in Hrun as [_ Ht]; done.
Qed.

Lemma no_schema_event_in_projects files c :
  Forall (λ ev, ¬ schema_event ev) (log (for_each files add_localization_project) c).
Proof.
  unfold log.
  destruct (for_each files add_localization_project c) as [[o c'] t] eqn:Hrun.
  apply (respects_for_each (λ _, True) (λ ev, ¬ schema_event ev)) in Hrun
    as [_ Ht]; [done| |done].
  intros lg _ c0 o0 c0' t0 _ H0. split; [done|].
  pose proof (no_schema_event_in_project lg c0) as Hlog.
  unfold log in Hlog. by rewrite H0 in Hlog.
Qed.

Lemma convert_log first rest tran others l c :
  document_trans first = tran :: others → loc tran = Some l →
  ∃ ev fin t,
    log (convert (first :: rest)) c = ev :: fin :: t
    ∧ statement_of ev = Some (AddColumn (format_language l))
    ∧ statement_of fin = None
    ∧ Forall (λ ev, ¬ schema_event ev) t.
Proof.
  intros Hd Hl.
  destruct (add_language_log (format_language l) c) as (ev & fin & Hlog & Hev & Hfin).
  exists ev, fin.
  exists (match result (add_language (format_language l)) c with
          | Return a =>
              log (for_each (first :: rest) add_localization_project)
                (run (add_language (format_language l)) c)
          | Raise _ => []
          end).
  split; [|split; [done|split; [done|]]].
  - unfold log, convert, get_language, language_of. rewrite Hd, Hl.
    unfold mbind, M_bind. rewrite bind_ret.
    fold (log (bind (add_language (format_language l))
                 (λ _, for_each (first :: rest) add_localization_project)) c).
    by rewrite log_bind, Hlog.
  - destruct (result _ c); [apply no_schema_event_in_projects|constructor].
Qed.

(** C5, as the code has it.  [add_language] is not called by the merge but
    once per archive, by [convert]: in the log of a conversion the only
    ALTER TABLE statement is the first statement of the log, and its column
    is the normalized locale code of the first [tran] element of the first
    document; and when the first document has such an element, with its
    [loc] attribute, that statement is run. *)
Theorem convert_adds_one_language files c :
  (∀ i ev name,
     log (convert files) c !! i = Some ev →
     statement_of ev = Some (AddColumn name) →
     i = 0%nat
     ∧ ∃ first rest tran others l,
         files = first :: rest ∧ document_trans first = tran :: others
         ∧ loc tran = Some l ∧ name = format_language l)
  ∧ (∀ first rest tran others l,
       files = first :: rest → document_trans first = tran :: others →
       loc tran = Some l →
       ∃ ev, log (convert files) c !! 0%nat = Some ev
             ∧ statement_of ev = Some (AddColumn (format_language l))).
Proof.
  split.
  - intros i ev name.
    destruct files as [|first rest]; [done|].
    destruct (document_trans first) as [|tran others] eqn:Hd.
    { unfold log, convert, get_language. by rewrite Hd. }
    destruct (loc tran) as [l|] eqn:Hl.
    2: { unfold log, convert, get_language, language_of. by rewrite Hd, Hl. }
    destruct (convert_log first rest tran others l c Hd Hl)
      as (ev0 & fin & t & -> & H0 & Hfin & Ht).
    intros Hi Hev. destruct i as [|[|i]]; simpl in Hi.
    + split; [done|]. assert (name = format_language l) by congruence.
      by exists first, rest, tran, others, l.
    + congruence.
    + exfalso. eapply Forall_lookup_1 in Ht; [|exact Hi].
      apply Ht. right. by exists name.
  - intros first rest tran others l -> Hd Hl.
    destruct (convert_log first rest tran others l c Hd Hl)
      as (ev0 & fin & t & -> & H0 & _).
    by exists ev0.
Qed.

Lemma convert_adds_one_language_witness :
  let ev := Executed (AddColumn "fr") (-1) in
  log (convert [sample_document]) new_store !! 0%nat = Some ev
  ∧ statement_of ev = Some (AddColumn "fr")
  ∧ 0%nat = 0%nat
  ∧ ∃ first rest tran others l,
      [sample_document] = first :: rest ∧ document_trans first = tran :: others
      ∧ loc tran = Some l ∧ "fr" = format_language l.
Proof.
  intros ev.
  assert (H1 : log (convert [sample_document]) new_store !! 0%nat = Some ev)
    by (vm_compute; reflexivity).
  assert (H2 : statement_of ev = Some (AddColumn "fr")) by reflexivity.
  repeat (split; [assumption|]).
  exact (proj1 (convert_adds_one_language [sample_document] new_store)
           0%nat ev "fr" H1 H2).
Defined.

(** C5, as the claim has it, fails: in the conversion of an archive whose
    one text item has the base language [en] and translations into [fr]
    and [de], [add_language] is called for [fr] only; the insert writes the
    column [en] and the update of the German translation names the column
    [de], for which no ALTER TABLE statement was run, and raises. *)
Lemma languages_not_ensured :
  log (convert [sample_document]) new_store
  = [Executed (AddColumn "fr") (-1); Committed;
     Executed (SelectFileId (Some "A/B.strings")) (-1);
     Executed (InsertFile (Some "App") (Some "A/B.strings")) 1; Committed;
     Executed (UpdateLocalization "fr" (Some "Bonjour") 1 (Some "0")) 0;
     Executed (InsertLocalization 1 (Some "0") (Some "title")
                 "en" (Some "Hello") "fr" (Some "Bonjour")) 1;
     Failed (UpdateLocalization "de" (Some "Hallo") 1 (Some "0"))
       (OperationalError no_such_column);
     RolledBack]
  ∧ result (convert [sample_document]) new_store
    = Raise (OperationalError no_such_column)
  ∧ ¬ ensured_before (log (convert [sample_document]) new_store).
Proof.
  assert (Hlog : log (convert [sample_document]) new_store
    = [Executed (AddColumn "fr") (-1); Committed;
       Executed (SelectFileId (Some "A/B.strings")) (-1);
       Executed (InsertFile (Some "App") (Some "A/B.strings")) 1; Committed;
       Executed (UpdateLocalization "fr" (Some "Bonjour") 1 (Some "0")) 0;
       Executed (InsertLocalization 1 (Some "0") (Some "title")
                   "en" (Some "Hello") "fr" (Some "Bonjour")) 1;
       Failed (UpdateLocalization "de" (Some "Hallo") 1 (Some "0"))
         (OperationalError no_such_column);
       RolledBack]) by (vm_compute; reflexivity).
  split; [exact Hlog|]. split; [vm_compute; reflexivity|].
  rewrite Hlog. intros Hens.
  destruct (Hens 7%nat _ _ "de" eq_refl eq_refl) as (j & ev0 & Hj & Hlook & Hst).
  { by left. }
  do 7 (destruct j as [|j]; [simpl in Hlook; by simplify_eq|]). lia.
Qed.

(** * Further properties of the script *)

(** ** [format_language] *)

Lemma format_language_hyphen_free s : hyphen_free (format_language s) = true.
Proof.
  unfold hyphen_free, format_language. induction s as [|c s IH]; [done|].
  simpl. rewrite IH, andb_true_r.
  destruct (Ascii.eqb c "-") eqn:Hc; [done|]. by rewrite Hc.
Qed.

Lemma format_language_fixed s : hyphen_free s = true → format_language s = s.
Proof.
  unfold hyphen_free, format_language. induction s as [|c s IH]; [done|].
  simpl. intros [Hc Hs]%andb_true_iff. rewrite (IH Hs).
  by destruct (Ascii.eqb c "-").
Qed.

(** X1.  [format_language] yields a string of the same length without any
    hyphen, changes nothing in a string that has no hyphen, and is therefore
    idempotent. *)
Theorem format_language_normalizes s :
  hyphen_free (format_language s) = true
  ∧ String.length (format_language s) = String.length s
  ∧ (hyphen_free s = true → format_language s = s)
  ∧ format_language (format_language s) = format_language s.
Proof.
  split; [apply format_language_hyphen_free|]. split.
  - unfold format_language. induction s as [|c s IH]; [done|].
    simpl. by rewrite IH.
  - split; [apply format_language_fixed|].
    apply format_language_fixed, format_language_hyphen_free.
Qed.

Lemma format_language_normalizes_witness :
  hyphen_free "pt_BR" = true ∧ format_language "pt_BR" = "pt_BR".
Proof.
  split; [reflexivity|].
  exact (proj1 (proj2 (proj2 (format_language_normalizes "pt_BR"))) eq_refl).
Defined.

(** ** Invariants of the two tables *)

Lemma max_id_ge (l : list FileRow) r : r ∈ l → (id r ≤ max_id l)%Z.
Proof.
  unfold max_id. induction l as [|x l IH]; [by intros ?%elem_of_nil|].
  intros [->|Hr]%elem_of_cons; simpl; [lia|]. specialize (IH Hr). lia.
Qed.

Lemma files_distinct_stable : stable files_distinct.
Proof.
  intros s d d' cur [Hi Hp] Hpr Hs. unfold files_distinct in *.
  destruct s as [|p|pj p|c v f p|f p desc b bv t tv|c]; simpl in Hs.
  - simplify_eq. destruct (created d); [done|]. simpl. split; constructor.
  - by simplify_eq.
  - destruct pj as [pj|], p as [p|]; try done.
    case_bool_decide as Hin; simplify_eq. simpl.
    rewrite !fmap_app. simpl. split.
    + apply NoDup_app. split; [done|]. split; [|apply NoDup_singleton].
      intros i Hi1 Hi2%list_elem_of_singleton. subst i.
      apply list_elem_of_fmap in Hi1 as (r & Hr & Hin').
      apply max_id_ge in Hin'. lia.
    + apply NoDup_app. split; [done|]. split; [|apply NoDup_singleton].
      intros q Hq1 Hq2%list_elem_of_singleton. by subst q.
  - case_bool_decide; by simplify_eq.
  - destruct p as [p|]; [|done].
    repeat (case_bool_decide; [done|]). by simplify_eq.
  - by simplify_eq.
Qed.

(** X2.  The identifiers of the registered files are pairwise distinct and
    so are their paths, and whatever calls of the script are made, returning
    or raising, they remain so: an identifier names one path and a path has
    one identifier. *)
Theorem files_stay_distinct (ks : list call) (c : connection) :
  idle c → files_distinct (data c) →
  files_distinct (data (perform_all ks c)).
Proof.
  intros Hi Hd.
  apply (perform_all_kept (lifted files_distinct) any_event); try done.
  - apply lifted_kept, files_distinct_stable.
  - by apply lifted_idle.
Qed.

Lemma files_stay_distinct_witness :
  idle (connect blank) ∧ files_distinct (data (connect blank))
  ∧ files_distinct (data (perform_all
      [CreateTable; AddFile (Some "App") (Some "A/B.strings");
       AddFile (Some "Other") (Some "A/B.strings");
       AddFile (Some "App") (Some "C.strings")] (connect blank))).
Proof.
  split; [reflexivity|]. split; [split; constructor|].
  apply files_stay_distinct; [reflexivity|split; constructor].
Defined.

Lemma referential_stable : stable referential.
Proof.
  intros s d d' cur Hr Hpr Hs. unfold referential in *.
  destruct s as [|p|pj p|c v f p|f p desc b bv t tv|c]; simpl in Hs.
  - simplify_eq. destruct (created d); [done|]. constructor.
  - by simplify_eq.
  - destruct pj as [pj|], p as [p|]; try done.
    case_bool_decide as Hin; simplify_eq. simpl.
    eapply Forall_impl; [exact Hr|]. intros r Hin'. simpl in Hin'.
    rewrite fmap_app. apply elem_of_app. by left.
  - case_bool_decide; simplify_eq. simpl. unfold update_rows.
    apply Forall_fmap. eapply Forall_impl; [exact Hr|].
    intros r Hin. simpl. by case_decide.
  - destruct p as [p|]; [|done].
    case_bool_decide as H1; [done|].
    case_bool_decide as H2; [done|].
    case_bool_decide as H3; [done|]. simplify_eq. simpl.
    apply Forall_app. split; [done|]. constructor; [|done].
    simpl. destruct (decide (f ∈ id <$> Files d)); [done|tauto].
  - by simplify_eq.
Qed.

(** X3.  Referential integrity: on a connection on which [create_table] has
    run (it turns the enforcement of foreign keys on), every record of
    [Localizations] carries the identifier of a registered file, and
    whatever calls of the script follow, returning or raising, this remains
    so. *)
Theorem records_stay_referential (ks : list call) (c : connection) :
  idle c → referential (data c) →
  referential (data (perform_all (CreateTable :: ks) c)).
Proof.
  intros Hi Hd.
  apply (perform_all_kept (lifted referential) any_event); try done.
  - apply lifted_kept, referential_stable.
  - by apply lifted_idle.
Qed.

Lemma records_stay_referential_witness :
  idle (connect blank) ∧ referential (data (connect blank))
  ∧ referential (data (perform_all
      (CreateTable ::
       [AddLanguage "fr"; AddFile (Some "App") (Some "A/B.strings");
        AddTextItem (item "0" "title" (tr "en" "Hello") [tr "fr" "Bonjour"]) 1;
        AddTextItem (item "1" "title" (tr "en" "Hello") [tr "fr" "Bonjour"]) 7])
      (connect blank))).
Proof.
  split; [reflexivity|]. split; [constructor|].
  apply records_stay_referential; [reflexivity|constructor].
Defined.

Lemma default_present_stable : stable default_present.
Proof.
  intros s d d' cur Hr Hpr Hs. unfold default_present in *.
  destruct s as [|p|pj p|c v f p|f p desc b bv t tv|c]; simpl in Hs.
  - simplify_eq. destruct (created d); [done|]. constructor.
  - by simplify_eq.
  - destruct pj as [pj|], p as [p|]; try done.
    case_bool_decide as Hin; by simplify_eq.
  - case_bool_decide as Hnn; simplify_eq. simpl. unfold update_rows.
    apply Forall_fmap. apply Forall_forall. intros r Hin. simpl.
    pose proof (proj1 (Forall_forall _ _) Hr r Hin) as Hen.
    destruct (decide (at_slot f p r)) as [Hat|Hat]; [|done].
    unfold get_text in *. rewrite texts_set_text.
    change (column_key default_language) with default_language.
    case_decide as Hk; [|done].
    destruct v as [v|]; [done|]. exfalso. apply Hnn.
    split; [|done]. intros Hnil.
    assert (Hr' : r ∈ filter (at_slot f p) (Localizations d))
      by (by apply list_elem_of_filter).
    rewrite Hnil in Hr'. by apply elem_of_nil in Hr'.
  - destruct p as [p|]; [|done].
    case_bool_decide as H1; [done|].
    case_bool_decide as H2; [done|].
    case_bool_decide as H3; [done|]. simplify_eq. simpl.
    apply Forall_app. split; [done|]. constructor; [|done].
    by destruct (get_text default_language _).
  - by simplify_eq.
Qed.

(** X4.  The default language is mandatory: every record has a text in the
    column [en], and whatever calls of the script are made, returning or
    raising, this remains so; no merge stores a record without an English
    text or erases the English text of one. *)
Theorem records_keep_default_language (ks : list call) (c : connection) :
  idle c → default_present (data c) →
  default_present (data (perform_all ks c)).
Proof.
  intros Hi Hd.
  apply (perform_all_kept (lifted default_present) any_event); try done.
  - apply lifted_kept, default_present_stable.
  - by apply lifted_idle.
Qed.

Lemma records_keep_default_language_witness :
  idle sample_store ∧ default_present (data sample_store)
  ∧ default_present (data (perform_all
      [AddTextItem (item "0" "title" (tr "en" "Hello") [tr "fr" "Bonjour"]) 1;
       AddTextItem {| Description := None; Position := Some "0";
                      base := tr "en" "Hello";
                      trans := [ {| loc := Some "en"; text := None |} ] |} 1]
      sample_store)).
Proof.
  split; [reflexivity|]. split; [constructor|].
  apply records_keep_default_language; [reflexivity|constructor].
Defined.

Lemma extends_stable F S : stable (extends F S).
Proof.
  intros s d d' cur (Hc & HF & HS) Hpr Hs. unfold extends in *.
  destruct s as [|p|pj p|c v f p|f p desc b bv t tv|c]; simpl in Hs.
  - rewrite Hc in Hs. by simplify_eq.
  - by simplify_eq.
  - destruct pj as [pj|], p as [p|]; try done.
    case_bool_decide as Hin; simplify_eq. simpl.
    split; [done|]. split; [|done]. by apply prefix_app_r.
  - case_bool_decide; simplify_eq. simpl. split; [done|]. split; [done|].
    unfold update_rows. rewrite <- list_fmap_compose.
    erewrite list_fmap_ext; [exact HS|].
    intros i r _. simpl. by case_decide.
  - destruct p as [p|]; [|done].
    repeat (case_bool_decide; [done|]). simplify_eq. simpl.
    split; [done|]. split; [done|]. rewrite fmap_app. by apply prefix_app_r.
  - by simplify_eq.
Qed.

(** X5.  Nothing is ever deleted or renumbered: on a store that has its
    tables, whatever calls of the script are made with locale codes that
    name language columns, returning or raising, the rows of [Files] at the
    start are still there, unchanged and in place, followed by the new ones,
    and so are the (file_id, position) slots of the records. *)
Theorem rows_are_never_removed (ks : list call) (c : connection) :
  idle c → created (data c) = true →
  forallb call_names_languages ks = true →
  Files (data c) `prefix_of` Files (data (perform_all ks c))
  ∧ (slot <$> Localizations (data c))
    `prefix_of` (slot <$> Localizations (data (perform_all ks c))).
Proof.
  intros Hi Hc _.
  assert (H : lifted (extends (Files (data c)) (slot <$> Localizations (data c)))
                (perform_all ks c)).
  { apply (perform_all_kept _ any_event); try done.
    - apply lifted_kept, extends_stable.
    - by apply lifted_idle. }
  by destruct H as [(_ & HF & HS) _].
Qed.

Lemma rows_are_never_removed_witness :
  let c := perform_all
    [AddTextItem (item "0" "title" (tr "en" "Hello") [tr "fr" "Bonjour"]) 1]
    sample_store in
  let ks := [AddFile (Some "App") (Some "C.strings");
             AddTextItem (item "0" "heading" (tr "en" "Hi") [tr "de" "Hallo"]) 1;
             AddTextItem (item "1" "title" (tr "en" "Bye") [tr "de" "Ade"]) 2] in
  idle c ∧ created (data c) = true
  ∧ forallb call_names_languages ks = true
  ∧ Files (data c) `prefix_of` Files (data (perform_all ks c))
  ∧ (slot <$> Localizations (data c))
    `prefix_of` (slot <$> Localizations (data (perform_all ks c))).
Proof.
  intros c ks. split; [reflexivity|]. split; [reflexivity|].
  split; [vm_compute; reflexivity|].
  apply rows_are_never_removed; [reflexivity|reflexivity|vm_compute; reflexivity].
Defined.

(** X6.  Every function of the script ends the transaction it began: when
    no transaction is open before a run of calls, none is open after it,
    whether the calls returned or raised. *)
Theorem calls_close_their_transactions (ks : list call) (c : connection) :
  idle c →
  idle (perform_all ks c)
  ∧ ∀ k o c' t, perform k (perform_all ks c) = (o, c', t) → idle c'.
Proof.
  intros Hi. pose proof (perform_all_idle ks c Hi) as Hend.
  split; [exact Hend|]. intros k o c' t Hrun.
  by apply (idle_perform k _ _ _ _ Hend Hrun).
Qed.

Lemma calls_close_their_transactions_witness :
  idle sample_store
  ∧ idle (perform_all
      [AddTextItem (item "0" "title" (tr "en" "Hello")
                      [tr "fr" "Bonjour"; tr "nl" "Hallo"]) 1;
       AddFile None (Some "C.strings"); Convert []] sample_store).
Proof.
  split; [reflexivity|].
  exact (proj1 (calls_close_their_transactions _ sample_store eq_refl)).
Defined.

(** ** [create_table] and [add_language] *)

Lemma create_table_run c :
  failure c = None →
  create_table c
  = (Return tt,
     {| data := if created (data c) then data c else created_tables;
        saved := None; failure := failure c |},
     [Executed CreateTables (-1); Committed]).
Proof.
  intros Hf.
  unfold create_table, with_db, executescript, mbind, M_bind, bind, ret, execute.
  simpl. rewrite Hf. unfold commit, with_data. simpl. by rewrite Hf.
Qed.

(** X7.  [create_table] on a working connection returns normally and leaves
    a store that has its tables; a store that had them already keeps its
    whole content (CREATE ... IF NOT EXISTS), a new file gets the two empty
    tables with the one language column [en]; a second call changes
    nothing. *)
Theorem create_table_keeps_content c :
  failure c = None →
  result create_table c = Return tt
  ∧ created (data (run create_table c)) = true
  ∧ (created (data c) = true → data (run create_table c) = data c)
  ∧ (data c = blank → data (run create_table c) = created_tables)
  ∧ run create_table (run create_table c) = run create_table c.
Proof.
  intros Hf. unfold result, run. rewrite (create_table_run c Hf). simpl.
  split; [done|]. split; [by destruct (created (data c)) eqn:Hc|].
  split; [by intros ->|]. split; [by intros ->|].
  rewrite create_table_run by done. simpl.
  by destruct (created (data c)) eqn:Hc; simpl; rewrite ?Hc.
Qed.

Lemma create_table_keeps_content_witness :
  failure sample_store = None
  ∧ result create_table sample_store = Return tt
  ∧ data (run create_table sample_store) = data sample_store.
Proof.
  split; [reflexivity|].
  destruct (create_table_keeps_content sample_store eq_refl) as (H1 & _ & H3 & _).
  split; [exact H1|]. apply H3. reflexivity.
Defined.

(** X8.  [add_language] ensures the column: on a working store that has its
    tables, for a locale code that can name a column, the call returns
    normally, the column exists afterwards, no column is lost, the rows of
    both tables are untouched, and nothing at all changes in the content
    when the column existed already. *)
Theorem add_language_ensures_column language c :
  failure c = None → created (data c) = true → language_name language = true →
  result (add_language language) c = Return tt
  ∧ has_column (data (run (add_language language) c)) language = true
  ∧ columns (data c) ⊆ columns (data (run (add_language language) c))
  ∧ Files (data (run (add_language language) c)) = Files (data c)
  ∧ Localizations (data (run (add_language language) c)) = Localizations (data c)
  ∧ (has_column (data c) language = true →
     data (run (add_language language) c) = data c).
Proof.
  intros Hf Hc Hn.
  unfold result, run, add_language, with_db, try_except, mbind, M_bind, bind,
    ret, execute.
  rewrite Hf. simpl. rewrite Hn, Hc. simpl.
  destruct (has_column (data c) language) eqn:Hh; simpl.
  - by split_and!.
  - split_and!; try done.
    + unfold has_column. simpl. apply bool_decide_eq_true_2.
      apply elem_of_app. right. by left.
    + intros x Hx. apply elem_of_app. by left.
Qed.

Lemma add_language_ensures_column_witness :
  failure new_store = None ∧ created (data new_store) = true
  ∧ language_name "zh_Hant" = true
  ∧ result (add_language "zh_Hant") new_store = Return tt
  ∧ has_column (data (run (add_language "zh_Hant") new_store)) "zh_Hant" = true.
Proof.
  split; [reflexivity|]. split; [reflexivity|]. split; [reflexivity|].
  destruct (add_language_ensures_column "zh_Hant" new_store eq_refl eq_refl eq_refl)
    as (H1 & H2 & _).
  by split.
Defined.

(** ** [add_file] *)

(** X9.  [add_file] returns the identifier of a registered file: when it
    returns, the path was given and [Files] has a row with the returned
    identifier and that path; the row was there before the call, with the
    content it still has, or it is the one the call appended, with the
    project of the call. *)
Theorem add_file_registers project_name file_path c i c1 t1 :
  add_file project_name file_path c = (Return i, c1, t1) →
  ∃ p r, file_path = Some p ∧ r ∈ Files (data c1) ∧ id r = i ∧ path r = p
         ∧ (r ∈ Files (data c) ∧ data c1 = data c
            ∨ Files (data c1) = Files (data c) ++ [r]
              ∧ Some (project r) = project_name).
Proof.
  intros Hrun. unfold add_file in Hrun.
  apply bind_inv in Hrun as [(cur & c0 & t0 & t2 & H0 & Hrun & ->)|(e & _ & ?)];
    [|done].
  apply execute_select_inv in H0 as (Hf & Hc & -> & -> & Hrows).
  destruct (rows cur) as [|i0 ids] eqn:Hcur.
  - apply with_db_inv in Hrun
      as [(a & c2 & t3 & H3 & ? & -> & ->)|(e & c2 & t3 & _ & ? & _)]; [|done].
    simplify_eq.
    apply bind_inv in H3 as [(cur2 & c3 & t4 & t5 & H4 & H5 & ->)|(e & _ & ?)];
      [|done].
    unfold ret in H5. simplify_eq.
    apply execute_inv in H4
      as [(e' & _ & ? & _)|[(e' & _ & _ & ? & _)
         |[(e' & _ & _ & _ & ? & _)|(d & cur' & _ & _ & Hs & ? & -> & ->)]]];
      simplify_eq.
    simpl in Hs. destruct project_name as [pj|]; [|done].
    destruct file_path as [p|]; [|done].
    case_bool_decide as Hin; [done|]. simplify_eq. simpl.
    eexists p, _. split; [done|]. split.
    { apply elem_of_app. right. by left. }
    split; [done|]. split; [done|]. right. done.
  - unfold ret in Hrun. simplify_eq.
    destruct file_path as [p|]; [|done].
    destruct (filter (λ r, path r = p) (Files (data c1))) as [|r rs] eqn:Hfl;
      [done|].
    assert (Hr : r ∈ filter (λ r, path r = p) (Files (data c1)))
      by (rewrite Hfl; by left).
    apply list_elem_of_filter in Hr as [Hp Hr].
    simpl in Hrows. simplify_eq.
    exists (path r), r. split; [done|]. split; [done|].
    split; [done|]. split; [done|]. by left.
Qed.

Lemma add_file_registers_witness :
  let first := add_file (Some "App") (Some "A/B.strings") in
  first new_store = (Return 1%Z, run first new_store, log first new_store)
  ∧ ∃ p r, Some "A/B.strings" = Some p ∧ r ∈ Files (data (run first new_store))
           ∧ id r = 1%Z ∧ path r = p
           ∧ (r ∈ Files (data new_store) ∧ data (run first new_store) = data new_store
              ∨ Files (data (run first new_store)) = Files (data new_store) ++ [r]
                ∧ Some (project r) = Some "App").
Proof.
  intros first.
  assert (H1 : first new_store
               = (Return 1%Z, run first new_store, log first new_store))
    by (vm_compute; reflexivity).
  split; [exact H1|].
  exact (add_file_registers (Some "App") (Some "A/B.strings") new_store 1 _ _ H1).
Defined.

Lemma rollback_begin c : idle c → rollback (begin c) = c.
Proof. destruct c as [d s e]. unfold idle. simpl. by intros ->. Qed.

Lemma rollback_idle c : idle c → rollback c = c.
Proof. destruct c as [d s e]. unfold idle. simpl. by intros ->. Qed.

(** X10.  [add_file] is all or nothing: entered without an open
    transaction, a call that raises leaves the connection as it was.  On a
    working store it raises [IntegrityError] when the document gives no path
    (an empty [Filepath]), and when it gives no project name (an empty
    [ProjName]) for a path that is not registered yet. *)
Theorem add_file_all_or_nothing project_name file_path c :
  (∀ e c' t, idle c → add_file project_name file_path c = (Raise e, c', t) → c' = c)
  ∧ (failure c = None → created (data c) = true →
     file_path = None
     ∨ (project_name = None
        ∧ ∀ p, file_path = Some p → project_of p (data c) = None) →
     result (add_file project_name file_path) c = Raise IntegrityError).
Proof.
  split.
  - intros e c' t Hi Hrun. unfold add_file in Hrun.
    apply bind_inv in Hrun as [(cur & c0 & t0 & t2 & H0 & Hrun & ->)|(e0 & H0 & _)].
    + apply execute_select_inv in H0 as (Hf & Hc & -> & -> & Hrows).
      destruct (rows cur); [|done].
      apply with_db_inv in Hrun
        as [(a & c2 & t3 & _ & ? & _)|(e1 & c2 & t3 & H3 & _ & -> & _)]; [done|].
      apply bind_inv in H3 as [(cur2 & c3 & t4 & t5 & _ & H5 & _)|(e2 & H4 & _)];
        [done|].
      apply (within_rollback c c2 Hi).
      by apply (within_execute c (InsertFile project_name file_path) Hi eq_refl
                  _ _ _ _ (within_refl c) H4).
    + apply execute_inv in H0
        as [(e' & _ & _ & -> & _)|[(e' & _ & _ & _ & -> & _)
           |[(e' & _ & _ & _ & _ & -> & _)|(? & ? & _ & _ & _ & ? & _)]]]; done.
  - intros Hf Hc Hcase.
    unfold result, add_file, mbind, M_bind, bind.
    rewrite execute_select by done. simpl.
    destruct Hcase as [->|[-> Hnone]].
    + unfold with_db, bind, execute. simpl. rewrite Hf. simpl. rewrite Hc.
      simpl. by destruct project_name.
    + destruct file_path as [p|].
      * specialize (Hnone p eq_refl). unfold project_of in Hnone.
        destruct (filter (λ r, path r = p) (Files (data c))); [|done].
        simpl. unfold with_db, bind, execute. simpl. rewrite Hf. simpl.
        by rewrite Hc.
      * unfold with_db, bind, execute. simpl. rewrite Hf. simpl. by rewrite Hc.
Qed.

Lemma add_file_all_or_nothing_witness :
  idle sample_store
  ∧ failure sample_store = None ∧ created (data sample_store) = true
  ∧ (∀ p, Some "C.strings" = Some p → project_of p (data sample_store) = None)
  ∧ result (add_file None (Some "C.strings")) sample_store = Raise IntegrityError
  ∧ run (add_file None (Some "C.strings")) sample_store = sample_store.
Proof.
  assert (H0 : idle sample_store) by reflexivity.
  assert (H1 : failure sample_store = None) by reflexivity.
  assert (H2 : created (data sample_store) = true) by reflexivity.
  assert (H3 : ∀ p, Some "C.strings" = Some p → project_of p (data sample_store) = None).
  { intros p [= <-]. reflexivity. }
  repeat (split; [assumption|]).
  destruct (add_file_all_or_nothing None (Some "C.strings") sample_store) as [Ha Hb].
  split; [apply Hb; [done|done|right; by split]|].
  apply (Ha IntegrityError (run (add_file None (Some "C.strings")) sample_store)
            (log (add_file None (Some "C.strings")) sample_store) H0).
  vm_compute. reflexivity.
Defined.

(** ** What a merge stores *)

(** X11.  A merge that returns has stored the translation: for locale codes
    that name language columns, the record at (file_id, position) then holds
    the text of the translation in the column of the target language (taken
    other than the column of the base language).  When no record was there
    before, the record is the new one: it has the description and the base
    content of the merge, and every other language column is NULL. *)
Theorem merge_tran_reads_back f p desc bl bv tran l c c' t :
  loc tran = Some l →
  language_name (format_language l) = true → language_name bl = true →
  column_key (format_language l) ≠ column_key bl →
  merge_tran f (Some p) desc bl bv tran c = (Return tt, c', t) →
  ∃ r, record_at f p (data c') = Some r
       ∧ get_text (format_language l) r = text tran
       ∧ (record_at f p (data c) = None →
          get_text bl r = bv ∧ description r = desc
          ∧ ∀ k, k ≠ column_key (format_language l) → k ≠ column_key bl →
                 texts r !! k = None).
Proof.
  intros Hl _ _ Hne Hrun.
  pose proof (merge_tran_inv _ _ _ _ _ _ _ _ _ _ _ Hl Hrun) as Hinv.
  cbv zeta in Hinv.
  destruct Hinv as [(e & He & _)|[(Hhit & _ & _ & _ & _ & -> & _)
     |[(_ & _ & _ & e & He & _)|(Hmiss & _ & _ & _ & d & cur & Hs & _ & -> & _)]]];
    try done.
  - cbn [data with_data]. rewrite record_at_updated.
    unfold record_at.
    destruct (filter (at_slot f (Some p)) (Localizations (data c))) as [|r0 rs];
      [done|].
    simpl. eexists. split; [done|]. split; [|done].
    unfold get_text. rewrite texts_set_text. by rewrite decide_True.
  - apply step_insert_inv in Hs as (p' & ? & _ & _ & _ & ->). simplify_eq.
    cbn [data with_data]. unfold record_at. simpl.
    rewrite filter_app, Hmiss, filter_cons, decide_True by done. simpl.
    eexists. split; [done|]. unfold get_text, new_row. split; [|intros _; split_and!].
    + rewrite !texts_set_text. rewrite decide_False by done.
      by rewrite decide_True.
    + rewrite !texts_set_text. by rewrite decide_True.
    + done.
    + intros k Hk1 Hk2. rewrite !texts_set_text.
      rewrite !decide_False by done. apply lookup_empty.
Qed.

Lemma merge_tran_reads_back_witness :
  let merge := merge_tran 1 (Some "0") (Some "title") "en" (Some "Hello")
                 (tr "fr" "Bonjour") in
  loc (tr "fr" "Bonjour") = Some "fr"
  ∧ language_name (format_language "fr") = true ∧ language_name "en" = true
  ∧ column_key (format_language "fr") ≠ column_key "en"
  ∧ merge sample_store = (Return tt, run merge sample_store, log merge sample_store)
  ∧ ∃ r, record_at 1 "0" (data (run merge sample_store)) = Some r
         ∧ get_text (format_language "fr") r = text (tr "fr" "Bonjour")
         ∧ (record_at 1 "0" (data sample_store) = None →
            get_text "en" r = Some "Hello" ∧ description r = Some "title"
            ∧ ∀ k, k ≠ column_key (format_language "fr") → k ≠ column_key "en" →
                   texts r !! k = None).
Proof.
  intros merge.
  assert (H1 : loc (tr "fr" "Bonjour") = Some "fr") by reflexivity.
  assert (Hn : language_name (format_language "fr") = true) by (vm_compute; reflexivity).
  assert (Hb : language_name "en" = true) by (vm_compute; reflexivity).
  assert (H2 : column_key (format_language "fr") ≠ column_key "en")
    by (vm_compute; discriminate).
  assert (H3 : merge sample_store
               = (Return tt, run merge sample_store, log merge sample_store))
    by (vm_compute; reflexivity).
  repeat (split; [assumption|]).
  exact (merge_tran_reads_back 1 "0" (Some "title") "en" (Some "Hello")
           (tr "fr" "Bonjour") "fr" sample_store _ _ H1 Hn Hb H2 H3).
Defined.

Lemma set_text_commute a va b vb r :
  column_key a ≠ column_key b →
  set_text a va (set_text b vb r) = set_text b vb (set_text a va r).
Proof.
  intros Hne. apply row_eq; try done. intros k. rewrite !texts_set_text.
  repeat case_decide; congruence.
Qed.

Lemma update_rows_commute a va b vb f p rows :
  column_key a ≠ column_key b →
  update_rows a va f p (update_rows b vb f p rows)
  = update_rows b vb f p (update_rows a va f p rows).
Proof.
  intros Hne. unfold update_rows. rewrite <- !list_fmap_compose.
  apply list_fmap_ext. intros i r _. simpl.
  destruct (decide (at_slot f p r)) as [Hr|Hr].
  - rewrite (decide_True (P := at_slot f p (set_text b vb r))) by done.
    rewrite (decide_True (P := at_slot f p (set_text a va r))) by done.
    by apply set_text_commute.
  - by rewrite !(decide_False (P := at_slot f p r)) by done.
Qed.

(** X12.  Merges into an existing record commute: when a record is at
    (file_id, position) and two translations into different language
    columns, coming from any two text items (whatever their descriptions and
    base contents), are merged one after the other and both merges return,
    then merging them in the other order returns as well, with the same
    logs, and leaves the same connection. *)
Theorem merge_tran_commute f p dA blA bvA tA lA dB blB bvB tB lB c cA cAB t1 t2 :
  loc tA = Some lA → loc tB = Some lB →
  language_name (format_language lA) = true →
  language_name (format_language lB) = true →
  column_key (format_language lA) ≠ column_key (format_language lB) →
  filter (at_slot f p) (Localizations (data c)) ≠ [] →
  merge_tran f p dA blA bvA tA c = (Return tt, cA, t1) →
  merge_tran f p dB blB bvB tB cA = (Return tt, cAB, t2) →
  ∃ cB, merge_tran f p dB blB bvB tB c = (Return tt, cB, t2)
        ∧ merge_tran f p dA blA bvA tA cB = (Return tt, cAB, t1).
Proof.
  intros HlA HlB _ _ Hne Hhit HA HB.
  pose proof (merge_tran_inv _ _ _ _ _ _ _ _ _ _ _ HlA HA) as HinvA.
  cbv zeta in HinvA.
  destruct HinvA as [(e & He & _)|[(_ & Hf & HpA & HnA & _ & -> & ->)
     |[(Hmiss & _)|(Hmiss & _)]]]; try done.
  pose proof (merge_tran_inv _ _ _ _ _ _ _ _ _ _ _ HlB HB) as HinvB.
  cbv zeta in HinvB. cbn [data with_data Localizations with_Localizations] in HinvB.
  rewrite filter_update_rows, length_fmap in HinvB.
  destruct HinvB as [(e & He & _)|[(_ & _ & HpB & HnB & _ & -> & ->)
     |[(Hmiss & _)|(Hmiss & _)]]]; try done.
  2, 3: by destruct (filter _ _).
  rewrite prepare_with_Localizations in HpB.
  eexists. split.
  - by apply merge_tran_update.
  - rewrite (merge_tran_update _ _ _ _ _ _ _ _ HlA);
      cbn [data failure with_data Localizations with_Localizations].
    + rewrite filter_update_rows, length_fmap.
      rewrite !with_data_begin_again.
      by rewrite (update_rows_commute _ _ _ _ _ _ _ Hne).
    + done.
    + by rewrite prepare_with_Localizations.
    + rewrite filter_update_rows. by destruct (filter _ _).
    + done.
Qed.

Lemma merge_tran_commute_witness :
  let c := run (add_text_item (item "0" "title" (tr "en" "Hello") [tr "fr" "Bonjour"]) 1)
             sample_store in
  let mA := merge_tran 1 (Some "0") (Some "heading") "en" (Some "Hi") (tr "de" "Hallo") in
  let mB := merge_tran 1 (Some "0") (Some "title") "en" (Some "Hello") (tr "fr" "Salut") in
  loc (tr "de" "Hallo") = Some "de" ∧ loc (tr "fr" "Salut") = Some "fr"
  ∧ language_name (format_language "de") = true
  ∧ language_name (format_language "fr") = true
  ∧ column_key (format_language "de") ≠ column_key (format_language "fr")
  ∧ filter (at_slot 1 (Some "0")) (Localizations (data c)) ≠ []
  ∧ mA c = (Return tt, run mA c, log mA c)
  ∧ mB (run mA c) = (Return tt, run mB (run mA c), log mB (run mA c))
  ∧ ∃ cB, mB c = (Return tt, cB, log mB (run mA c))
          ∧ mA cB = (Return tt, run mB (run mA c), log mA c).
Proof.
  intros c mA mB.
  assert (H1 : loc (tr "de" "Hallo") = Some "de") by reflexivity.
  assert (H2 : loc (tr "fr" "Salut") = Some "fr") by reflexivity.
  assert (HnA : language_name (format_language "de") = true)
    by (vm_compute; reflexivity).
  assert (HnB : language_name (format_language "fr") = true)
    by (vm_compute; reflexivity).
  assert (H3 : column_key (format_language "de") ≠ column_key (format_language "fr"))
    by (vm_compute; discriminate).
  assert (H4 : filter (at_slot 1 (Some "0")) (Localizations (data c)) ≠ [])
    by (vm_compute; discriminate).
  assert (H5 : mA c = (Return tt, run mA c, log mA c)) by (vm_compute; reflexivity).
  assert (H6 : mB (run mA c) = (Return tt, run mB (run mA c), log mB (run mA c)))
    by (vm_compute; reflexivity).
  repeat (split; [assumption|]).
  exact (merge_tran_commute 1 (Some "0") (Some "heading") "en" (Some "Hi")
           (tr "de" "Hallo") "de" (Some "title") "en" (Some "Hello")
           (tr "fr" "Salut") "fr" c _ _ _ _ H1 H2 HnA HnB H3 H4 H5 H6).
Defined.

(** ** The inputs on which the script returns *)

Lemma returns_ret {A} (I : connection → Prop) (a : A) (Q : A → connection → Prop) :
  (∀ c, I c → Q a c) → returns I (ret a) Q.
Proof. intros HQ c HI. exists a, c, []. split; [done|]. by apply HQ. Qed.

Lemma returns_bind {A B} I (m : M A) Q (k : A → M B) R :
  returns I m Q → (∀ a, returns (Q a) (k a) R) → returns I (bind m k) R.
Proof.
  intros Hm Hk c HI. destruct (Hm c HI) as (a & c1 & t1 & H1 & HQ).
  destruct (Hk a c1 HQ) as (b & c2 & t2 & H2 & HR).
  exists b, c2, (t1 ++ t2). split; [|done]. unfold bind. by rewrite H1, H2.
Qed.

Lemma returns_for_each {A} I (l : list A) (body : A → M unit) :
  (∀ x, x ∈ l → returns I (body x) (λ _, I)) →
  returns I (for_each l body) (λ _, I).
Proof.
  induction l as [|x l IH]; intros Hbody; simpl.
  - by apply returns_ret.
  - apply (returns_bind _ _ (λ _, I)).
    + apply Hbody. by left.
    + intros _. apply IH. intros y Hy. apply Hbody. by right.
Qed.

Lemma returns_with_db {A} I (m : M A) Q (R : A → connection → Prop) :
  returns I m Q → (∀ a c, Q a c → R a (commit c)) → returns I (with_db m) R.
Proof.
  intros Hm HR c HI. destruct (Hm c HI) as (a & c1 & t1 & H1 & HQ).
  exists a, (commit c1), (t1 ++ [Committed]). split; [|by apply HR].
  unfold with_db. by rewrite H1.
Qed.

Lemma ready_mono cols cols' c : cols' ⊆ cols → ready cols c → ready cols' c.
Proof.
  intros Hsub (Hf & Hc & Hcols). split; [done|]. split; [done|].
  intros x Hx. by apply Hcols, Hsub.
Qed.

Lemma ready_has_column cols c name :
  ready cols c → column_key name ∈ cols → has_column (data c) name = true.
Proof.
  intros (_ & _ & Hcols) Hin. unfold has_column.
  apply bool_decide_eq_true_2. by apply Hcols.
Qed.

Lemma filter_nil_not_elem {A} (P : A → Prop) `{∀ x, Decision (P x)} (l : list A) x :
  filter P l = [] → x ∈ l → ¬ P x.
Proof.
  intros Hnil Hx HP.
  assert (Hin : x ∈ filter P l) by (by apply list_elem_of_filter).
  rewrite Hnil in Hin. by apply elem_of_nil in Hin.
Qed.

Lemma add_file_returns cols pj p :
  returns (ready cols) (add_file (Some pj) (Some p)) (λ i, ready_for cols i).
Proof.
  intros c (Hf & Hc & Hcols).
  unfold add_file, mbind, M_bind, bind. rewrite execute_select by done.
  cbn [rows]. destruct (filter (λ r, path r = p) (Files (data c))) as [|r rs] eqn:Hfl.
  - simpl.
    assert (Hnew : p ∉ path <$> Files (data c)).
    { intros (r & Hp & Hr)%list_elem_of_fmap.
      by apply (filter_nil_not_elem _ _ r Hfl Hr). }
    unfold with_db, bind.
    erewrite execute_step; [| done | by simpl; rewrite Hc | ].
    2: { simpl. rewrite bool_decide_eq_false_2 by done. reflexivity. }
    simpl. eexists _, _, _. split; [done|].
    split; [by split|]. simpl. rewrite fmap_app. apply elem_of_app. right. by left.
  - simpl. eexists _, _, _. split; [done|]. split; [by split|].
    apply list_elem_of_fmap. exists r. split; [done|].
    assert (Hr : r ∈ filter (λ r, path r = p) (Files (data c)))
      by (rewrite Hfl; by left).
    by apply list_elem_of_filter in Hr as [_ Hr].
Qed.

Lemma merge_tran_returns cols i p desc bl v tran :
  default_language ∈ cols →
  language_name bl = true → column_key bl = default_language →
  plain_tran cols tran →
  returns (ready_for cols i) (merge_tran i (Some p) desc bl (Some v) tran)
    (λ _, ready_for cols i).
Proof.
  intros Hen Hbn Hbk (l & Hl & Hn & Hk & Htext) c ((Hf & Hc & Hcols) & Hi).
  assert (Hready : ready cols c) by done.
  assert (Hcol : has_column (data c) (format_language l) = true)
    by (by apply (ready_has_column cols)).
  assert (Hbcol : has_column (data c) bl = true).
  { apply (ready_has_column cols); [done|]. by rewrite Hbk. }
  assert (Hp : prepare (data c)
                 (UpdateLocalization (format_language l) (text tran) i (Some p)) = None).
  { simpl. by rewrite Hn, Hc, Hcol. }
  assert (Hnn : ¬ (column_key (format_language l) = default_language
                   ∧ text tran = None)).
  { intros [Hk' Hv]. destruct (Htext Hk') as [x Hx]. congruence. }
  destruct (decide (filter (at_slot i (Some p)) (Localizations (data c)) = []))
    as [Hmiss|Hhit].
  - set (update := UpdateLocalization (format_language l) (text tran) i (Some p)).
    set (insert := InsertLocalization i (Some p) desc bl (Some v)
                     (format_language l) (text tran)).
    set (nr := new_row i p desc bl (Some v) (format_language l) (text tran)).
    assert (Hu : execute update c
                 = (Return {| rows := []; rowcount := 0; lastrowid := 0 |},
                    begin c, [Executed update 0])).
    { rewrite (execute_step update c (data c)
                 {| rows := []; rowcount := 0; lastrowid := 0 |}); [|done|done|].
      - cbn [rowcount]. do 2 f_equal.
      - simpl. rewrite Hmiss, bool_decide_eq_false_2 by (by intros [? _]).
        rewrite (update_rows_miss _ _ _ _ _ Hmiss). simpl.
        do 2 f_equal. by destruct (data c). }
    assert (Hins : execute insert (begin c)
                   = (Return {| rows := []; rowcount := 1; lastrowid := 0 |},
                      with_data (begin c)
                        (with_Localizations (data c) (Localizations (data c) ++ [nr])),
                      [Executed insert 1])).
    { rewrite (execute_step insert (begin c)
                 (with_Localizations (data c) (Localizations (data c) ++ [nr]))
                 {| rows := []; rowcount := 1; lastrowid := 0 |}); [|done| |].
      - cbn [rowcount]. do 2 f_equal. unfold started, begin. simpl.
        by destruct (saved c).
      - simpl. by rewrite Hbn, Hn, Hc, Hbcol, Hcol.
      - simpl. fold nr.
        rewrite bool_decide_eq_false_2.
        2: { unfold get_text, nr, new_row. rewrite texts_set_text.
             change (column_key default_language) with default_language.
             by rewrite decide_True. }
        rewrite bool_decide_eq_false_2.
        2: { intros (r & Hs & Hr)%list_elem_of_fmap.
             apply (filter_nil_not_elem _ _ r Hmiss Hr). by apply at_slot_slot. }
        rewrite bool_decide_eq_false_2 by tauto. done. }
    eexists tt, _, _. split.
    + unfold merge_tran, language_of, mbind, M_bind, bind, ret.
      rewrite Hl. fold update. rewrite Hu. cbn [rowcount].
      rewrite decide_True by done. fold insert. by rewrite Hins.
    + by split.
  - eexists tt, _, _. split; [by apply merge_tran_update|]. by split.
Qed.

Lemma ready_for_commit cols i c : ready_for cols i c → ready_for cols i (commit c).
Proof. done. Qed.

Lemma add_text_item_returns cols ti i :
  default_language ∈ cols → plain_item cols ti →
  returns (ready_for cols i) (add_text_item ti i) (λ _, ready_for cols i).
Proof.
  intros Hen ([p Hp] & (b & Hb & Hbn & Hbk) & [v Hv] & Htrans).
  intros c Hc. unfold add_text_item, language_of, mbind, M_bind.
  rewrite Hb, Hp, Hv, bind_ret.
  apply (returns_with_db (ready_for cols i) _ (λ _, ready_for cols i)); [|done|done].
  apply returns_for_each. intros tran Hin.
  apply merge_tran_returns; try done.
  by apply (proj1 (Forall_forall _ _) Htrans).
Qed.

Lemma returns_weaken {A} I (m : M A) (Q Q' : A → connection → Prop) :
  returns I m Q → (∀ a c, Q a c → Q' a c) → returns I m Q'.
Proof.
  intros Hm HQ c HI. destruct (Hm c HI) as (a & c1 & t1 & H1 & H2).
  exists a, c1, t1. split; [done|]. by apply HQ.
Qed.

Lemma add_localization_project_returns cols lg :
  default_language ∈ cols → plain_document cols lg →
  returns (ready cols) (add_localization_project lg) (λ _, ready cols).
Proof.
  intros Hen ([pj Hpj] & Hfiles). unfold add_localization_project.
  apply returns_for_each. intros f Hf.
  destruct (proj1 (Forall_forall _ _) Hfiles f Hf) as ([p Hp] & Hitems).
  rewrite Hpj, Hp.
  apply (returns_bind _ _ (λ i, ready_for cols i)); [apply add_file_returns|].
  intros i. apply (returns_weaken _ _ (λ _, ready_for cols i)); [|by intros _ c [? _]].
  apply returns_for_each. intros ti Hti.
  apply add_text_item_returns; [done|].
  by apply (proj1 (Forall_forall _ _) Hitems).
Qed.

Lemma add_language_returns cols language :
  language_name language = true →
  returns (ready cols) (add_language language)
    (λ _, ready (column_key language :: cols)).
Proof.
  intros Hn c (Hf & Hc & Hcols).
  unfold add_language, with_db, try_except, mbind, M_bind, bind, ret, execute.
  rewrite Hf. simpl. rewrite Hn, Hc. simpl.
  destruct (has_column (data c) language) eqn:Hh; simpl.
  - eexists _, _, _. split; [done|]. split; [done|]. split; [done|]. simpl.
    intros x [->|Hx]%elem_of_cons; [|by apply Hcols].
    unfold has_column in Hh. by apply bool_decide_eq_true_1 in Hh.
  - eexists _, _, _. split; [done|]. split; [done|]. split; [done|]. simpl.
    intros x [->|Hx]%elem_of_cons; apply elem_of_app; [right; by left|].
    left. by apply Hcols.
Qed.

Lemma document_trans_plain cols lg :
  plain_document cols lg → Forall (plain_tran cols) (document_trans lg).
Proof.
  intros [_ Hfiles]. unfold document_trans.
  apply Forall_concat, Forall_fmap.
  eapply Forall_impl; [exact Hfiles|]. intros f [_ Hitems]. simpl.
  apply Forall_concat, Forall_fmap.
  eapply Forall_impl; [exact Hitems|]. by intros ti (_ & _ & _ & Htrans).
Qed.

Lemma plain_tran_mono cols cols' t : cols ⊆ cols' → plain_tran cols t → plain_tran cols' t.
Proof.
  intros Hsub (l & Hl & Hn & Hk & Ht). exists l. split_and!; try done.
  by apply Hsub.
Qed.

Lemma convert_archive_returns cols first rest tran others l :
  default_language ∈ cols →
  document_trans first = tran :: others → loc tran = Some l →
  Forall (plain_document (column_key (format_language l) :: cols)) (first :: rest) →
  returns (ready cols) (convert (first :: rest))
    (λ _, ready (column_key (format_language l) :: cols)).
Proof.
  intros Hen Hd Hl Hdocs.
  set (K := column_key (format_language l)) in *.
  assert (Hn : language_name (format_language l) = true).
  { apply Forall_cons in Hdocs as [Hfirst _].
    apply document_trans_plain in Hfirst. rewrite Hd in Hfirst.
    apply Forall_cons in Hfirst as [(l' & Hl' & Hn' & _) _]. congruence. }
  intros c0 Hc0. unfold convert, get_language, language_of, mbind, M_bind.
  rewrite Hd, Hl, bind_ret.
  apply (returns_bind (ready cols) _ (λ _, ready (K :: cols))
           _ (λ _, ready (K :: cols))); [by apply add_language_returns| |done].
  intros _. apply returns_for_each. intros lg Hlg.
  apply add_localization_project_returns; [by right|].
  by apply (proj1 (Forall_forall _ _) Hdocs).
Qed.

(** X13.  The archives that [convert] processes to the end.  On a working
    store that has its tables and the column [en], when the first document
    of the archive has a translation and, in every document, the project
    name, the file paths, the positions and the base texts are present, the
    base language is [en], and every translation names an acceptable column
    that is the language of that first translation or a column that exists
    already (with a text when it is [en]), [convert] returns normally, on a
    store that still works and has lost no column. *)
Theorem convert_returns cols files c :
  default_language ∈ cols → ready cols c → plain_archive cols files →
  ∃ c' t, convert files c = (Return tt, c', t) ∧ ready cols c'.
Proof.
  intros Hen Hc (first & rest & tran & others & l & -> & Hd & Hl & Hdocs).
  destruct (convert_archive_returns cols first rest tran others l Hen Hd Hl Hdocs c Hc)
    as ([] & c' & t & Hrun & Hc').
  exists c', t. split; [done|].
  apply (ready_mono (column_key (format_language l) :: cols)); [|done].
  intros x Hx. by right.
Qed.

Lemma convert_returns_witness :
  let files :=
    [ {| ProjName := Some "App";
         FileElements :=
           [ {| Filepath := Some "A/B.strings";
                TextItems := [ item "0" "title" (tr "en" "Hello") [tr "fr" "Bonjour"];
                               item "1" "title" (tr "en" "Bye") [tr "fr" "Salut"] ] |} ] |};
      {| ProjName := Some "Other";
         FileElements :=
           [ {| Filepath := Some "A/B.strings";
                TextItems := [ item "0" "heading" (tr "en" "Hello") [tr "fr" "Allo"] ] |} ] |} ] in
  default_language ∈ [default_language]
  ∧ ready [default_language] new_store
  ∧ plain_archive [default_language] files
  ∧ ∃ c' t, convert files new_store = (Return tt, c', t) ∧ ready [default_language] c'.
Proof.
  intros files.
  assert (H1 : default_language ∈ [default_language]) by (by left).
  assert (H2 : ready [default_language] new_store).
  { split; [reflexivity|]. split; [reflexivity|].
    intros x Hx. apply list_elem_of_singleton in Hx. subst x. by left. }
  assert (Hfr : ∀ s, plain_tran ["fr"; default_language] (tr "fr" s)).
  { intros s. exists "fr". split; [reflexivity|]. split; [reflexivity|].
    split; [by left|]. intros _. by eexists. }
  assert (Hit : ∀ p d b s, plain_item ["fr"; default_language]
                             (item p d (tr "en" b) [tr "fr" s])).
  { intros p d b s. split; [by eexists|]. split.
    - exists "en". by split_and!.
    - split; [by eexists|]. by constructor. }
  assert (H3 : plain_archive [default_language] files).
  { eexists _, _, _, _, "fr". split; [reflexivity|]. split; [reflexivity|].
    split; [reflexivity|].
    change (column_key (format_language "fr")) with "fr".
    constructor.
    { split; [by eexists|]. constructor; [|constructor].
      split; [by eexists|]. constructor; [apply Hit|].
      constructor; [apply Hit|constructor]. }
    constructor; [|constructor].
    split; [by eexists|]. constructor; [|constructor].
    split; [by eexists|]. constructor; [apply Hit|constructor]. }
  repeat (split; [assumption|]).
  exact (convert_returns [default_language] files new_store H1 H2 H3).
Defined.

(** X14.  The runs of [main] that process every archive: on a working
    connection whose store is new or has the column [en], when every
    archive is as in X13 with translations into its own language or into
    [en], [main] returns normally. *)
Theorem main_returns filenames c :
  failure c = None →
  (created (data c) = true → has_column (data c) default_language = true) →
  Forall (plain_archive [default_language]) filenames →
  ∃ c' t, main filenames c = (Return tt, c', t) ∧ ready [default_language] c'.
Proof.
  intros Hf Hen Hall.
  assert (Hready : ready [default_language] (run create_table c)).
  { unfold run. rewrite (create_table_run c Hf). simpl.
    split; [done|]. destruct (created (data c)) eqn:Hc.
    - split; [done|]. intros x Hx%list_elem_of_singleton. subst x.
      specialize (Hen eq_refl). unfold has_column in Hen.
      by apply bool_decide_eq_true_1 in Hen.
    - split; [done|]. intros x Hx. exact Hx. }
  assert (Hloop : returns (ready [default_language]) (for_each filenames convert)
                    (λ _, ready [default_language])).
  { apply returns_for_each. intros files Hfiles.
    destruct (proj1 (Forall_forall _ _) Hall files Hfiles)
      as (first & rest & tran & others & l & -> & Hd & Hl & Hdocs).
    eapply returns_weaken;
      [apply (convert_archive_returns _ _ _ _ _ _ ltac:(by left) Hd Hl Hdocs)|].
    intros [] c1 Hc1. apply (ready_mono _ [default_language] c1) in Hc1; [done|].
    intros x Hx. by right. }
  destruct (Hloop _ Hready) as ([] & c' & t & Hrun & Hc').
  unfold main, mbind, M_bind, bind. rewrite (create_table_run c Hf).
  unfold run in Hrun. rewrite (create_table_run c Hf) in Hrun. simpl in Hrun.
  rewrite Hrun. by eexists _, _.
Qed.

Lemma main_returns_witness :
  let archive (l s : string) : list Document :=
    [ {| ProjName := Some "App";
         FileElements :=
           [ {| Filepath := Some "A/B.strings";
                TextItems := [ item "0" "title" (tr "en" "Hello") [tr l s] ] |} ] |} ] in
  let filenames := [archive "fr" "Bonjour"; archive "de" "Hallo"] in
  failure (connect blank) = None
  ∧ (created (data (connect blank)) = true →
     has_column (data (connect blank)) default_language = true)
  ∧ Forall (plain_archive [default_language]) filenames
  ∧ ∃ c' t, main filenames (connect blank) = (Return tt, c', t)
            ∧ ready [default_language] c'.
Proof.
  intros archive filenames.
  assert (H1 : failure (connect blank) = None) by reflexivity.
  assert (H2 : created (data (connect blank)) = true →
               has_column (data (connect blank)) default_language = true)
    by discriminate.
  assert (Hone : ∀ l s, l = "fr" ∨ l = "de" →
            plain_archive [default_language] (archive l s)).
  { intros l s Hl. eexists _, _, _, _, l.
    split; [reflexivity|]. split; [reflexivity|]. split; [reflexivity|].
    constructor; [|constructor]. split; [by eexists|].
    constructor; [|constructor]. split; [by eexists|].
    constructor; [|constructor]. split; [by eexists|]. split.
    { exists "en". by split_and!. }
    split; [by eexists|]. constructor; [|constructor].
    exists l. split; [reflexivity|].
    split; [by destruct Hl as [->| ->]|]. split; [by left|].
    intros _. by eexists. }
  assert (H3 : Forall (plain_archive [default_language]) filenames).
  { constructor; [apply Hone; by left|].
    constructor; [apply Hone; by right|constructor]. }
  repeat (split; [assumption|]).
  exact (main_returns filenames (connect blank) H1 H2 H3).
Defined.

(** ** Where a run stops *)

Lemma for_each_app {A} (l1 l2 : list A) (body : A → M unit) c :
  for_each (l1 ++ l2) body c
  = bind (for_each l1 body) (λ _, for_each l2 body) c.
Proof.
  revert c. induction l1 as [|x l1 IH]; intros c; simpl.
  - by rewrite bind_ret.
  - unfold bind. destruct (body x c) as [[[[]|e] c1] t1]; [|done].
    rewrite IH. unfold bind.
    destruct (for_each l1 body c1) as [[[[]|e] c2] t2]; [|done].
    destruct (for_each l2 body c2) as [[o c3] t3]. by rewrite app_assoc.
Qed.

(** X15.  [main] stops at the first archive that fails and keeps what the
    archives before it committed: when [main] has returned for a list of
    archives and [convert] raises on the next archive, [main] on the whole
    list raises the same exception after the same statements, the archives
    after the failing one are not touched, and the connection is the one the
    failing conversion left; in particular nothing is taken back from the
    archives already processed. *)
Theorem main_stops_at_failure finished failing remaining c c1 t1 e c2 t2 :
  main finished c = (Return tt, c1, t1) →
  convert failing c1 = (Raise e, c2, t2) →
  main (finished ++ failing :: remaining) c = (Raise e, c2, t1 ++ t2).
Proof.
  intros Hdone Hfail. unfold main, mbind, M_bind in *.
  apply bind_inv in Hdone as [([] & c0 & t0 & t3 & H0 & H3 & ->)|(e0 & _ & ?)];
    [|done].
  unfold bind at 1. rewrite H0, for_each_app. unfold bind at 1. rewrite H3.
  simpl. unfold bind. rewrite Hfail. by rewrite app_assoc.
Qed.

Lemma main_stops_at_failure_witness :
  let archive (l s : string) : list Document :=
    [ {| ProjName := Some "App";
         FileElements :=
           [ {| Filepath := Some "A/B.strings";
                TextItems := [ item "0" "title" (tr "en" "Hello") [tr l s] ] |} ] |} ] in
  let c1 := run (main [archive "fr" "Bonjour"]) (connect blank) in
  main [archive "fr" "Bonjour"] (connect blank)
  = (Return tt, c1, log (main [archive "fr" "Bonjour"]) (connect blank))
  ∧ convert [] c1 = (Raise IndexError, c1, [])
  ∧ main ([archive "fr" "Bonjour"] ++ [] :: [archive "de" "Hallo"]) (connect blank)
    = (Raise IndexError, c1, log (main [archive "fr" "Bonjour"]) (connect blank) ++ []).
Proof.
  intros archive c1.
  assert (H1 : main [archive "fr" "Bonjour"] (connect blank)
               = (Return tt, c1, log (main [archive "fr" "Bonjour"]) (connect blank)))
    by (vm_compute; reflexivity).
  assert (H2 : convert [] c1 = (Raise IndexError, c1, [])) by reflexivity.
  repeat (split; [assumption|]).
  exact (main_stops_at_failure [archive "fr" "Bonjour"] [] [archive "de" "Hallo"]
           (connect blank) c1 _ IndexError c1 [] H1 H2).
Defined.

(** ** The schema and the functions that merge *)

Section DataScript.
Variable I : connection → Prop.
Hypothesis I_kept : kept_by_data I.

Lemma data_respects_statement s :
  schema_statement s = false → respects I any_event (execute s).
Proof.
  intros Hs. apply respects_execute; [| |done].
  - intros c. by apply schema_free_started.
  - intros c d cur HI _. by apply schema_free_step.
Qed.

Lemma data_respects_transaction {A} (m : M A) :
  respects I any_event m → respects I any_event (with_db m).
Proof.
  apply respects_with_db; [apply I_kept|apply I_kept|done|done].
Qed.

Lemma data_respects_add_file project_name file_path :
  respects I any_event (add_file project_name file_path).
Proof.
  unfold add_file. apply respects_bind; [by apply data_respects_statement|].
  intros cur. destruct (rows cur); [|apply respects_ret].
  apply data_respects_transaction, respects_bind;
    [by apply data_respects_statement|intros ?; apply respects_ret].
Qed.

Lemma data_respects_merge_tran f p desc bl bv tran :
  respects I any_event (merge_tran f p desc bl bv tran).
Proof.
  unfold merge_tran. apply respects_bind.
  { unfold language_of. destruct (loc tran);
      [apply respects_ret|apply respects_raise]. }
  intros tl. apply respects_bind; [by apply data_respects_statement|].
  intros cur. case_decide; [|apply respects_ret].
  apply respects_bind; [by apply data_respects_statement|].
  intros ?. apply respects_ret.
Qed.

Lemma data_respects_add_text_item ti f : respects I any_event (add_text_item ti f).
Proof.
  unfold add_text_item. apply respects_bind.
  { unfold language_of. destruct (loc (base ti));
      [apply respects_ret|apply respects_raise]. }
  intros bl. apply data_respects_transaction, respects_for_each.
  intros tran _. apply data_respects_merge_tran.
Qed.

Lemma data_respects_add_localization_project lg :
  respects I any_event (add_localization_project lg).
Proof.
  unfold add_localization_project. apply respects_for_each. intros f _.
  apply respects_bind; [apply data_respects_add_file|].
  intros i. apply respects_for_each. intros ti _.
  apply data_respects_add_text_item.
Qed.
End DataScript.

Lemma same_schema_kept S b : kept_by_data (lifted (same_schema S b)).
Proof.
  split.
  - intros s c _ [Hd Hs]. split; [by rewrite data_started|].
    intros d Hd'. destruct (saved_started s c) as [Heq|[_ Heq]].
    + apply Hs. by rewrite <- Heq.
    + rewrite Heq in Hd'. by simplify_eq.
  - intros s c d cur Hschema [[Hcols Hc] Hs] Hp Hst. split.
    + simpl. unfold same_schema.
      destruct s as [|p|pj p|col v f p|f p desc bc bv t tv|col];
        simpl in Hst, Hschema; try done.
      * by simplify_eq.
      * destruct pj as [pj|], p as [p|]; try done.
        case_bool_decide; by simplify_eq.
      * case_bool_decide; by simplify_eq.
      * destruct p as [p|]; [|done].
        repeat (case_bool_decide; [done|]). by simplify_eq.
    + simpl. intros d0 Hd0. destruct (saved_started s c) as [Heq|[_ Heq]].
      * apply Hs. by rewrite <- Heq.
      * rewrite Heq in Hd0. by simplify_eq.
  - intros c [Hd Hs]. by split.
  - intros c [Hd Hs]. split; [|done]. simpl.
    destruct (saved c) as [d|]; simpl; [by apply Hs|done].
Qed.

(** X16.  The functions that merge never touch the schema: after
    [add_localization_project] (hence after the [add_file] and
    [add_text_item] calls it makes), entered without an open transaction and
    whether it returns or raises, [Localizations] has exactly the language
    columns it had; a translation into a language without a column is never
    given one by the merge. *)
Theorem add_localization_project_keeps_schema lg c o c' t :
  idle c → add_localization_project lg c = (o, c', t) →
  columns (data c') = columns (data c) ∧ created (data c') = created (data c).
Proof.
  intros Hi Hrun.
  pose proof (data_respects_add_localization_project _
                (same_schema_kept (columns (data c)) (created (data c)))
                lg c o c' t) as H.
  destruct H as [[H _] _]; [by apply lifted_idle|done|done].
Qed.

Lemma add_localization_project_keeps_schema_witness :
  let run_it := add_localization_project sample_document in
  idle new_store
  ∧ run_it new_store = (result run_it new_store, run run_it new_store, log run_it new_store)
  ∧ columns (data (run run_it new_store)) = columns (data new_store)
  ∧ created (data (run run_it new_store)) = created (data new_store).
Proof.
  intros run_it. split; [reflexivity|].
  assert (H : run_it new_store
              = (result run_it new_store, run run_it new_store, log run_it new_store))
    by (unfold result, run, log; by destruct (run_it new_store) as [[? ?] ?]).
  split; [exact H|].
  exact (add_localization_project_keeps_schema sample_document new_store _ _ _
           eq_refl H).
Defined.

Lemma projects_same_schema files c o c' t :
  idle c → for_each files add_localization_project c = (o, c', t) →
  columns (data c') = columns (data c).
Proof.
  intros Hi Hrun.
  pose proof (respects_for_each
                (lifted (same_schema (columns (data c)) (created (data c))))
                any_event files add_localization_project
                (λ lg _, data_respects_add_localization_project _
                           (same_schema_kept _ _) lg) c o c' t) as H.
  destruct H as [[[H _] _] _]; [by apply lifted_idle|done|done].
Qed.

Lemma add_language_result language c o c' t :
  add_language language c = (o, c', t) → c' = run (add_language language) c.
Proof. intros H. unfold run. by rewrite H. Qed.

(** X17.  A conversion adds at most one column: when the locale code of
    the first translation of the first document names a language column,
    after [convert], entered without an open transaction and whether it
    returns or raises, [Localizations] has the language columns it had, or
    these and one more, the column of that code, normalized, which did not
    exist. *)
Theorem convert_adds_at_most_one_column files c o c' t :
  idle c →
  (∀ first rest tran others, files = first :: rest →
     document_trans first = tran :: others → names_language tran = true) →
  convert files c = (o, c', t) →
  columns (data c') = columns (data c)
  ∨ ∃ first rest tran others l,
      files = first :: rest ∧ document_trans first = tran :: others
      ∧ loc tran = Some l
      ∧ has_column (data c) (format_language l) = false
      ∧ columns (data c') = columns (data c) ++ [column_key (format_language l)].
Proof.
  intros Hi _ Hrun. unfold convert in Hrun.
  destruct files as [|first rest]; [left; unfold raise in Hrun; by simplify_eq|].
  unfold get_language, language_of in Hrun.
  destruct (document_trans first) as [|tran others] eqn:Hd;
    [left; unfold mbind, M_bind, bind, raise in Hrun; by simplify_eq|].
  destruct (loc tran) as [l|] eqn:Hl;
    [|left; unfold mbind, M_bind, bind, raise in Hrun; by simplify_eq].
  unfold mbind, M_bind in Hrun. rewrite bind_ret in Hrun.
  assert (Hlang : ∀ c1, c1 = run (add_language (format_language l)) c →
            idle c1 ∧
            (columns (data c1) = columns (data c)
             ∨ has_column (data c) (format_language l) = false
               ∧ columns (data c1)
                 = columns (data c) ++ [column_key (format_language l)])).
  { intros c1 ->. rewrite add_language_run.
    destruct (failure c) as [e|].
    { destruct e; (split; [done|]); left; simpl; try done;
        unfold idle in Hi; by rewrite Hi. }
    destruct (prepare (data c) (AddColumn (format_language l))) as [e|] eqn:Hp.
    { split; [done|]. by left. }
    split; [done|]. right. split; [|done].
    simpl in Hp. destruct (has_column (data c) (format_language l)); [|done].
    by repeat case_match. }
  apply bind_inv in Hrun as [([] & c1 & t1 & t2 & H1 & H2 & ->)|(e & H1 & ->)].
  - apply add_language_result in H1. destruct (Hlang c1 H1) as [Hi1 Hcols].
    rewrite (projects_same_schema _ _ _ _ _ Hi1 H2).
    destruct Hcols as [Hsame|[Hnew Hadd]]; [by left|].
    right. by exists first, rest, tran, others, l.
  - apply add_language_result in H1. destruct (Hlang c' H1) as [_ Hcols].
    destruct Hcols as [Hsame|[Hnew Hadd]]; [by left|].
    right. by exists first, rest, tran, others, l.
Qed.

Lemma convert_adds_at_most_one_column_witness :
  let conv := convert [sample_document] in
  idle new_store
  ∧ (∀ first rest tran others, [sample_document] = first :: rest →
       document_trans first = tran :: others → names_language tran = true)
  ∧ conv new_store = (result conv new_store, run conv new_store, log conv new_store)
  ∧ (columns (data (run conv new_store)) = columns (data new_store)
     ∨ ∃ first rest tran others l,
         [sample_document] = first :: rest ∧ document_trans first = tran :: others
         ∧ loc tran = Some l
         ∧ has_column (data new_store) (format_language l) = false
         ∧ columns (data (run conv new_store))
           = columns (data new_store) ++ [column_key (format_language l)]).
Proof.
  intros conv. split; [reflexivity|].
  assert (Hn : ∀ first rest tran others, [sample_document] = first :: rest →
                 document_trans first = tran :: others → names_language tran = true).
  { intros first rest tran others [= <- <-] [= <- <-]. vm_compute. reflexivity. }
  assert (H : conv new_store
              = (result conv new_store, run conv new_store, log conv new_store))
    by (unfold result, run, log; by destruct (conv new_store) as [[? ?] ?]).
  split; [exact Hn|]. split; [exact H|].
  exact (convert_adds_at_most_one_column [sample_document] new_store _ _ _ eq_refl Hn H).
Defined.

(** X18.  The archives on which [convert] does nothing.  [convert] runs no
    statement exactly when the archive has no document, or its first
    document has no translation, or the first translation of that document
    has no [loc] attribute; it then raises [IndexError], [StopIteration] and
    [AttributeError] respectively and leaves the connection as it is,
    whatever the other documents of the archive contain. *)
Theorem convert_without_language files c :
  (files = [] → convert files c = (Raise IndexError, c, []))
  ∧ (∀ first rest, files = first :: rest → document_trans first = [] →
       convert files c = (Raise StopIteration, c, []))
  ∧ (∀ first rest tran others,
       files = first :: rest → document_trans first = tran :: others →
       loc tran = None →
       convert files c = (Raise AttributeError, c, []))
  ∧ (log (convert files) c = [] →
     files = []
     ∨ ∃ first rest, files = first :: rest
         ∧ (document_trans first = []
            ∨ ∃ tran others, document_trans first = tran :: others
                             ∧ loc tran = None)).
Proof.
  split; [by intros ->|]. split.
  { intros first rest -> Hd. unfold convert, get_language. by rewrite Hd. }
  split.
  { intros first rest tran others -> Hd Hl.
    unfold convert, get_language, language_of. by rewrite Hd, Hl. }
  intros Hlog. destruct files as [|first rest]; [by left|]. right.
  exists first, rest. split; [done|].
  destruct (document_trans first) as [|tran others] eqn:Hd; [by left|]. right.
  exists tran, others. split; [done|].
  destruct (loc tran) as [l|] eqn:Hl; [|done].
  destruct (convert_log first rest tran others l c Hd Hl) as (ev & fin & t' & H & _).
  by rewrite H in Hlog.
Qed.

Lemma convert_without_language_witness :
  let empty_first := {| ProjName := Some "App"; FileElements := [] |} in
  [empty_first; sample_document] = empty_first :: [sample_document]
  ∧ document_trans empty_first = []
  ∧ convert [empty_first; sample_document] new_store
    = (Raise StopIteration, new_store, []).
Proof.
  intros empty_first. split; [reflexivity|]. split; [reflexivity|].
  exact (proj1 (proj2 (convert_without_language [empty_first; sample_document] new_store))
           empty_first [sample_document] eq_refl eq_refl).
Defined.

(** ** Text items that are rejected *)

Lemma for_each_return_inv {A} (I : connection → Prop) (l : list A)
    (body : A → M unit) c c' t :
  (∀ x, x ∈ l → respects I any_event (body x)) → I c →
  for_each l body c = (Return tt, c', t) →
  ∀ x, x ∈ l → ∃ c0 c1 t0, I c0 ∧ body x c0 = (Return tt, c1, t0).
Proof.
  revert c t. induction l as [|y l IH]; intros c t Hbody HI Hrun x Hx;
    [by apply elem_of_nil in Hx|].
  simpl in Hrun.
  apply bind_inv in Hrun as [([] & c1 & t1 & t2 & H1 & H2 & ->)|(e & _ & ?)];
    [|done].
  apply elem_of_cons in Hx as [->|Hx].
  - by exists c, c1, t1.
  - destruct (Hbody y ltac:(by left) c _ _ _ HI H1) as [HI1 _].
    apply (IH c1 t2); [|done|done|done].
    intros z Hz. apply Hbody. by right.
Qed.

(** X19.  A text item with a translation that cannot be stored is rejected
    as a whole: when one of its translations has no [loc] attribute, or has
    a locale code that names a language column that [Localizations] does not
    have, [add_text_item], entered without an open transaction, raises, and
    the connection is left as it was: none of the other translations of the
    item is stored. *)
Theorem add_text_item_rejects ti f tran c o c' t :
  idle c → tran ∈ trans ti →
  (∀ l, loc tran = Some l →
        language_name (format_language l) = true
        ∧ has_column (data c) (format_language l) = false) →
  add_text_item ti f c = (o, c', t) →
  (∃ e, o = Raise e) ∧ c' = c.
Proof.
  intros Hi Hin Hmissing Hrun. unfold add_text_item in Hrun.
  apply bind_inv in Hrun as [(bl & c0 & t0 & t2 & H0 & Hrun & ->)|(e & H0 & ->)].
  2: { split; [by exists e|]. unfold language_of, ret, raise in H0.
       destruct (loc (base ti)); by simplify_eq. }
  assert (c0 = c) as ->.
  { unfold language_of, ret, raise in H0. destruct (loc (base ti)); by simplify_eq. }
  apply with_db_inv in Hrun
    as [([] & c1 & t1 & H1 & _ & _ & _)|(e & c1 & t1 & H1 & -> & -> & _)].
  - exfalso.
    destruct (for_each_return_inv
                (lifted (same_schema (columns (data c)) (created (data c))))
                _ _ c c1 t1
                (λ x _, data_respects_merge_tran _ (same_schema_kept _ _)
                          f (Position ti) (Description ti) bl (text (base ti)) x)
                (lifted_idle _ c Hi (conj eq_refl eq_refl)) H1 tran Hin)
      as (ca & cb & ta & [[Hcols _] _] & Hm).
    destruct (loc tran) as [l|] eqn:Hl.
    + destruct (Hmissing l eq_refl) as [_ Hnone]. clear Hmissing.
      rename Hnone into Hmissing.
      pose proof (merge_tran_inv _ _ _ _ _ _ _ _ _ _ _ Hl Hm) as Hinv.
      cbv zeta in Hinv.
      assert (Hp : prepare (data ca)
                     (UpdateLocalization (format_language l) (text tran) f (Position ti))
                   = None).
      { destruct Hinv as [(e & He & _)|[(_ & _ & Hp & _)
           |[(_ & _ & _ & e & He & _)|(_ & _ & Hp & _)]]]; done. }
      simpl in Hp. unfold has_column in *. rewrite Hcols, Hmissing in Hp.
      by repeat case_match.
    + by rewrite merge_tran_no_loc in Hm.
  - split; [by exists e|]. apply (within_rollback c c1 Hi).
    by apply (within_merge_all c f (Position ti) (Description ti) bl
                (text (base ti)) (trans ti) c _ _ _ Hi (within_refl c) H1).
Qed.

Lemma add_text_item_rejects_witness :
  let ti := item "0" "title" (tr "en" "Hello") [tr "fr" "Bonjour"; tr "nl" "Hallo"] in
  idle sample_store ∧ tr "nl" "Hallo" ∈ trans ti
  ∧ (∀ l, loc (tr "nl" "Hallo") = Some l →
          language_name (format_language l) = true
          ∧ has_column (data sample_store) (format_language l) = false)
  ∧ (∃ e, result (add_text_item ti 1) sample_store = Raise e)
  ∧ run (add_text_item ti 1) sample_store = sample_store.
Proof.
  intros ti.
  assert (H1 : idle sample_store) by reflexivity.
  assert (H2 : tr "nl" "Hallo" ∈ trans ti) by (right; by left).
  assert (H3 : ∀ l, loc (tr "nl" "Hallo") = Some l →
                 language_name (format_language l) = true
                 ∧ has_column (data sample_store) (format_language l) = false).
  { intros l [= <-]. split; vm_compute; reflexivity. }
  repeat (split; [assumption|]).
  apply (add_text_item_rejects ti 1 (tr "nl" "Hallo") sample_store
           _ _ (log (add_text_item ti 1) sample_store) H1 H2 H3).
  unfold result, run, log. by destruct (add_text_item ti 1 sample_store) as [[? ?] ?].
Defined.
